(** * A segmented particle pool: [dynamic-particle-pool.js]

    The pool manager keeps an ordered list of fixed-size segments
    ("pools" in the source), each one with a queue of available
    particles.  The queue of a segment is a JavaScript array that is
    shared between the segment record ([pool.available]) and the
    closure [freePoolParticle] installed as the [free] method of every
    particle of that segment, so the arrays live in a store indexed by
    reference and both sides hold a reference into it.

    Numbers: particle counts are natural numbers and clock readings are
    integers (milliseconds).  The particle limit, which the adjustment
    ratios make fractional, is a double, held as the rational it denotes;
    the product and the quotient the code takes of it are rounded as IEEE
    754 binary64 rounds them ([Double.mul], [Double.div]).  NaN and the
    infinities are outside this model, save for the [Infinity] cleanup
    interval, which has a constructor of its own. *)

From Stdlib Require Import QArith Qminmax.
From stdpp Require Import base option list gmap.

Open Scope nat_scope.

(** ** Data model *)

(** Object identities handed out by the allocation counter of the store. *)
Definition ref := nat.

(** A JavaScript number that may be fractional. *)
Definition number := Q.

Definition of_nat (n : nat) : number := inject_Z (Z.of_nat n).

(** [a > b] and [a < b] on numbers, as booleans. *)
Definition gtb (a b : number) : bool := negb (Qle_bool a b).
Definition ltb (a b : number) : bool := negb (Qle_bool b a).

(** The arithmetic of doubles. A finite double is a rational [m * 2 ^ p]
    with [|m| < 2 ^ 53] and [p >= -1074]; an operation returns the double
    nearest to the exact result, ties going to the even [m]. Results
    beyond the range of finite doubles, where JavaScript gives an
    infinity, are not capped here. *)
Module Double.

(** The integer nearest to [n / d], ties to even ([n >= 0], [d > 0]). *)
Definition round_half_even (n d : Z) : Z :=
  let q := (n / d)%Z in
  match (2 * (n mod d) ?= d)%Z with
  | Lt => q
  | Gt => (q + 1)%Z
  | Eq => if Z.even q then q else (q + 1)%Z
  end.

(** The [e] with [2 ^ e <= n / d < 2 ^ (e + 1)]. *)
Definition floor_log2 (n d : positive) : Z :=
  let e := (Z.log2 (Zpos n) - Z.log2 (Zpos d))%Z in
  let below :=
    if (0 <=? e)%Z then (Zpos n <? Zpos d * 2 ^ e)%Z
    else (Zpos n * 2 ^ (- e) <? Zpos d)%Z in
  if below then (e - 1)%Z else e.

(** The double nearest to [n / d]: 53 significant bits, or fewer below
    [2 ^ -1022], where the spacing stays at [2 ^ -1074]. *)
Definition round_magnitude (n d : positive) : Q :=
  let p := Z.max (floor_log2 n d - 52) (-1074) in
  Qred (if (0 <=? p)%Z
        then inject_Z (round_half_even (Zpos n) (Zpos d * 2 ^ p) * 2 ^ p)
        else round_half_even (Zpos n * 2 ^ (- p)) (Zpos d) # Z.to_pos (2 ^ (- p))).

Definition round (q : Q) : Q :=
  match Qnum q with
  | Z0 => 0%Q
  | Zpos n => round_magnitude n (Qden q)
  | Zneg n => Qopp (round_magnitude n (Qden q))
  end.

(** [a * b] and [a / b] on doubles. *)
Definition mul (a b : number) : number := round (a * b).
Definition div (a b : number) : number := round (a / b).

End Double.

(** A particle is a [THREE.Vector3] with a [free] property.  [pid] is the
    identity of the object; [free] is the closure stored in the property,
    represented by the reference of the [available] array it captured. *)
Record particle := Particle { pid : ref; free : ref }.

#[global] Instance particle_eq_dec : EqDecision particle.
Proof. solve_decision. Defined.

Definition vec3 : Type := number * number * number.

Record geometry_obj := Geometry {
  gref : ref;
  vertices : list particle;
  verticesNeedUpdate : bool
}.

(** One entry of [pools]. *)
Record pool := Pool {
  geometry : geometry_obj;
  material : ref;
  mesh : ref;
  available : ref;
  size : nat
}.

(** The cleanup interval: a number of milliseconds, or [Infinity]. *)
Inductive interval := Ms (n : Z) | Infinity.

(** The option object as the caller passes it: every field may be absent. *)
Module Options.
Record t := Make {
  maximumParticles : option number;
  minimumParticles : option nat;
  particlesPerGeometry : option nat;
  cleanupInterval : option interval;
  defaultAdjustmentRatio : option number;
  offScreenPosition : option vec3
}.
Definition empty : t := Make None None None None None None.
End Options.

(** [opts] after the defaults are filled in. *)
Record options := Opts {
  maximumParticles : number;
  minimumParticles : nat;
  particlesPerGeometry : nat;
  cleanupInterval : interval;
  defaultAdjustmentRatio : number;
  offScreenPosition : vec3
}.

(** Calls made on the collaborators: the scene object and the disposable
    material and geometry of a segment. *)
Inductive call :=
  | object3d_add (m : ref)
  | object3d_remove (m : ref)
  | material_dispose (m : ref)
  | geometry_dispose (g : ref).

#[global] Instance call_eq_dec : EqDecision call.
Proof. solve_decision. Defined.

(** The closure state of one [DynamicParticlePool] together with the part
    of the store it reaches. *)
Record state := State {
  opts : options;
  pools : list pool;
  lastCleanup : Z;
  arrays : gmap ref (list particle);
  positions : gmap ref vec3;
  calls : list call;
  next : ref
}.

Definition set_maximumParticles (m : number) (st : state) : state :=
  State (Opts m (minimumParticles (opts st)) (particlesPerGeometry (opts st))
           (cleanupInterval (opts st)) (defaultAdjustmentRatio (opts st))
           (offScreenPosition (opts st)))
        (pools st) (lastCleanup st) (arrays st) (positions st) (calls st) (next st).

Definition set_pools (ps : list pool) (st : state) : state :=
  State (opts st) ps (lastCleanup st) (arrays st) (positions st) (calls st) (next st).

Definition set_lastCleanup (t : Z) (st : state) : state :=
  State (opts st) (pools st) t (arrays st) (positions st) (calls st) (next st).

Definition set_arrays (h : gmap ref (list particle)) (st : state) : state :=
  State (opts st) (pools st) (lastCleanup st) h (positions st) (calls st) (next st).

Definition set_positions (h : gmap ref vec3) (st : state) : state :=
  State (opts st) (pools st) (lastCleanup st) (arrays st) h (calls st) (next st).

Definition log (cs : list call) (st : state) : state :=
  State (opts st) (pools st) (lastCleanup st) (arrays st) (positions st)
        (calls st ++ cs) (next st).

(** The array behind [pool.available]. *)
Definition queue (h : gmap ref (list particle)) (p : pool) : list particle :=
  h !!! available p.

(** ** JavaScript truthiness of an optional number: [undefined] and [0]
    are falsy. *)
Definition if_truthy {A} (o : option number) (yes : number -> A) (no : A) : A :=
  match o with
  | Some q => if Qeq_bool q 0 then no else yes q
  | None => no
  end.

(** [o || d] *)
Definition or_else (o : option number) (d : number) : number :=
  if_truthy o (fun q => q) d.

(** ** createGeometry *)

(** The [while (i--)] loop: [i] new particles, each with the closure over
    the array [a] as its [free]. The same particles, in the same order,
    fill [geometry.vertices] and [available]. *)
Fixpoint new_particles (i : nat) (a : ref) (id : ref) : list particle :=
  match i with
  | 0 => []
  | S i' => Particle id a :: new_particles i' a (S id)
  end.

Definition place (at_ : vec3) (ps : list particle) (h : gmap ref vec3) : gmap ref vec3 :=
  foldr (fun p m => <[pid p := at_]> m) h ps.

Definition createGeometry (st : state) : state :=
  let geometry := next st in
  let available := S geometry in
  let vertices :=
    new_particles (particlesPerGeometry (opts st)) available (S available) in
  let material := S available + particlesPerGeometry (opts st) in
  let mesh := S material in
  State (opts st)
        (pools st ++ [Pool (Geometry geometry vertices false) material mesh
                        available (length vertices)])
        (lastCleanup st)
        (<[available := vertices]> (arrays st))
        (place (offScreenPosition (opts st)) vertices (positions st))
        (calls st ++ [object3d_add mesh])
        (S mesh).

(** ** freePoolParticle *)

(** What [this] can be when the closure runs. A context whose [set] is a
    function other than that of [THREE.Vector3] would run code of its
    own and is not among the cases. *)
Inductive this_value :=
  | this_undefined                (* the function was called unbound *)
  | this_plain                    (* a value whose [free] is not a function *)
  | this_no_set                   (* [free] is a function, [set] is not *)
  | this_particle (p : particle). (* a vector with a function as [free] *)

Inductive exception :=
  | Error_original_context        (* the [Error] thrown by the guard *)
  | TypeError_not_a_function.     (* calling [this.set] that is no function *)

(** A call returns, or it throws and leaves the store as given. *)
Inductive result (A : Type) :=
  | Ok (a : A)
  | Throw (e : exception) (a : A).
Arguments Ok {A} a.
Arguments Throw {A} e a.

(** The closure over the array [a], run with the given [this]. Both
    exceptions are raised before anything is written. *)
Definition freePoolParticle (a : ref) (this : this_value) (st : state) : result state :=
  match this with
  | this_undefined | this_plain => Throw Error_original_context st
  | this_no_set => Throw TypeError_not_a_function st
  | this_particle p =>
      Ok (set_arrays (<[a := (arrays st !!! a) ++ [p]]> (arrays st))
           (set_positions (<[pid p := offScreenPosition (opts st)]> (positions st)) st))
  end.

(** [p.free()] *)
Definition particle_free (p : particle) (st : state) : result state :=
  freePoolParticle (free p) (this_particle p) st.

(** ** getOrCreateParticle *)

(** The callback of [pools.some], run over the pools from the left. The
    result is the particle found, if any, the value of [count], and the
    store of arrays after the [shift]. *)
Fixpoint some (max : number) (ps : list pool) (count : nat)
    (h : gmap ref (list particle)) : option particle * nat * gmap ref (list particle) :=
  match ps with
  | [] => (None, count, h)
  | p :: rest =>
      match queue h p with
      | x :: q => (Some x, count, <[available p := q]> h)
      | [] =>
          let count' := count + size p in
          if gtb (of_nat count') max then (None, count', h)
          else some max rest count' h
      end
  end.

(** The function calls itself after creating a segment; [fuel] bounds
    the depth of that recursion, [None] meaning that it ran out. *)
Fixpoint getOrCreateParticle (fuel : nat) (st : state) : option (option particle * state) :=
  match fuel with
  | 0 => None
  | S fuel' =>
      let '(found, count, h) := some (maximumParticles (opts st)) (pools st) 0 (arrays st) in
      let st' := set_arrays h st in
      match found with
      | Some p => Some (Some p, st')
      | None =>
          if ltb (of_nat count) (maximumParticles (opts st))
          then getOrCreateParticle fuel' (createGeometry st')
          else Some (None, st')
      end
  end.

Definition getParticle (fuel : nat) (st : state) : option (option particle * state) :=
  getOrCreateParticle fuel st.

(** ** cleanUp *)

(** The [forEach] that computes [firstIdlePoolIndex]. *)
Fixpoint firstIdle (h : gmap ref (list particle)) (ps : list pool)
    (index : nat) (firstIdlePoolIndex : nat) : nat :=
  match ps with
  | [] => firstIdlePoolIndex
  | p :: rest =>
      firstIdle h rest (S index)
        (if length (queue h p) =? size p then firstIdlePoolIndex else S index)
  end.

(** [l.splice(start, deleteCount)]: what stays and what is removed. *)
Definition splice {A} (l : list A) (start deleteCount : nat) : list A * list A :=
  (take start l ++ drop (start + deleteCount) l, take deleteCount (drop start l)).

(** The body of [removedPools.forEach]. *)
Definition dispose_pool (p : pool) (st : state) : state :=
  set_arrays (<[available p := []]> (arrays st))
    (log [object3d_remove (mesh p); material_dispose (material p);
          geometry_dispose (gref (geometry p))] st).

(** [firstIdlePoolIndex] never exceeds [pools.length], so the subtraction
    on naturals is the one of the source. *)
Definition cleanUp (st : state) : state :=
  let firstIdlePoolIndex := firstIdle (arrays st) (pools st) 0 0 in
  let idlePools := length (pools st) - firstIdlePoolIndex in
  if 1 <? idlePools then
    let '(kept, removedPools) := splice (pools st) (firstIdlePoolIndex + 1) (idlePools - 1) in
    foldl (fun s p => dispose_pool p s) (set_pools kept st) removedPools
  else st.

(** ** increasePool, decreasePool *)

Definition increasePool (ratio absoluteCount : option number) (st : state) : state :=
  if_truthy absoluteCount
    (fun c => set_maximumParticles c st)
    (let r := or_else ratio (defaultAdjustmentRatio (opts st)) in
     let maxValue := of_nat ((length (pools st) + 1) * particlesPerGeometry (opts st)) in
     set_maximumParticles (Qmin (Double.mul (maximumParticles (opts st)) r) maxValue) st).

Definition decreasePool (ratio absoluteCount : option number) (st : state) : state :=
  if_truthy absoluteCount
    (fun c => set_maximumParticles c st)
    (let r := or_else ratio (defaultAdjustmentRatio (opts st)) in
     set_maximumParticles
       (Qmax (Qmax (Double.div (maximumParticles (opts st)) r)
                   (of_nat (particlesPerGeometry (opts st))))
             (of_nat (minimumParticles (opts st)))) st).

(** ** update *)

Definition needs_update (p : pool) : pool :=
  Pool (Geometry (gref (geometry p)) (vertices (geometry p)) true)
       (material p) (mesh p) (available p) (size p).

(** [elapsed > opts.cleanupInterval] *)
Definition exceeds (elapsed : Z) (i : interval) : bool :=
  match i with
  | Ms n => (n <? elapsed)%Z
  | Infinity => false
  end.

(** The test [Date.now() - lastCleanup > opts.cleanupInterval]. *)
Definition cleanup_due (now : Z) (st : state) : bool :=
  exceeds (now - lastCleanup st) (cleanupInterval (opts st)).

(** [update] reads the clock twice: [now] in the test and [now'] in the
    assignment that follows the cleanup. *)
Definition update (now now' : Z) (st : state) : state :=
  let st1 := set_pools (needs_update <$> pools st) st in
  if cleanup_due now st
  then set_lastCleanup now' (cleanUp st1)
  else st1.

(** ** The constructor *)

(** [Math.ceil(a / b)] on naturals, [b] positive. *)
Definition ceil_div (a b : nat) : nat := (a + (b - 1)) / b.

Definition defaults (o : Options.t) : options :=
  Opts (or_else (Options.maximumParticles o) 100000%Q)
       (default 3000 (Options.minimumParticles o))
       (match Options.particlesPerGeometry o with
        | Some (S n) => S n
        | _ => 1500
        end)
       (match Options.cleanupInterval o with
        | Some (Ms 0) | None => Ms 30000
        | Some i => i
        end)
       (or_else (Options.defaultAdjustmentRatio o) (Double.round 1.1%Q))
       (default (9999999%Q, 9999999%Q, 9999999%Q) (Options.offScreenPosition o)).

Definition DynamicParticlePool (o : Options.t) (now : Z) : state :=
  let opts := defaults o in
  let i := ceil_div (minimumParticles opts) (particlesPerGeometry opts) in
  Nat.iter i createGeometry (State opts [] now ∅ ∅ [] 0).

(** ** Runs of the public operations *)

(** [n] calls of [getParticle] in a row: the results, oldest first, and the
    final state ([None] when a call runs out of fuel). *)
Fixpoint getParticles (fuel n : nat) (st : state) : option (list (option particle) * state) :=
  match n with
  | 0 => Some ([], st)
  | S n' =>
      match getParticle fuel st with
      | Some (r, st') =>
          match getParticles fuel n' st' with
          | Some (rs, st'') => Some (r :: rs, st'')
          | None => None
          end
      | None => None
      end
  end.

(** Calls of a client that only allocates and frees, the latter always as
    [p.free()]. *)
Inductive op :=
  | allocate
  | release (p : particle).

Inductive event :=
  | returned (r : option particle)
  | freed (p : particle).

(** The observable history of a run; it ends early if a call runs out of
    fuel. *)
Fixpoint run (fuel : nat) (ops : list op) (st : state) : list event :=
  match ops with
  | [] => []
  | allocate :: k =>
      match getParticle fuel st with
      | Some (r, st') => returned r :: run fuel k st'
      | None => []
      end
  | release p :: k =>
      match particle_free p st with
      | Ok st' => freed p :: run fuel k st'
      | Throw _ _ => []
      end
  end.

(** The particles in use after an allocation and after a free. *)
Definition take_out (r : option particle) (live : list particle) : list particle :=
  match r with
  | Some p => p :: live
  | None => live
  end.

Definition give_back (p : particle) (live : list particle) : list particle :=
  filter (fun q => q ≠ p) live.

(** A run in which every [release p] meets [p] in use. *)
Fixpoint disciplined (fuel : nat) (ops : list op) (st : state) (live : list particle) : Prop :=
  match ops with
  | [] => True
  | allocate :: k =>
      match getParticle fuel st with
      | Some (r, st') => disciplined fuel k st' (take_out r live)
      | None => True
      end
  | release p :: k =>
      p ∈ live ∧
      match particle_free p st with
      | Ok st' => disciplined fuel k st' (give_back p live)
      | Throw _ _ => True
      end
  end.

(** No particle is returned twice without a free in between. *)
Definition unique_live (tr : list event) : Prop :=
  ∀ i j p, i < j →
    tr !! i = Some (returned (Some p)) →
    tr !! j = Some (returned (Some p)) →
    ∃ k, i < k < j ∧ tr !! k = Some (freed p).

(** ** Invariants *)

Definition total_size (ps : list pool) : nat := foldr (fun p n => size p + n) 0 ps.

(** Every particle waiting in the queue of some segment, in segment order. *)
Definition queued (h : gmap ref (list particle)) (ps : list pool) : list particle :=
  mjoin (queue h <$> ps).

(** What every operation keeps: the segments have arrays of their own,
    allocated earlier, and a segment has at least one slot. *)
Record wf (st : state) : Prop := Wf {
  wf_distinct : NoDup (available <$> pools st);
  wf_allocated : Forall (fun p => available p < next st) (pools st);
  wf_positive : 0 < particlesPerGeometry (opts st)
}.

(** What holds while the client frees only what it holds: no particle is
    queued twice or queued while in use. *)
Record consistent (st : state) (live : list particle) : Prop := Consistent {
  c_wf : wf st;
  c_nodup : NoDup (queued (arrays st) (pools st) ++ live);
  c_fresh : Forall (fun p => pid p < next st) (queued (arrays st) (pools st) ++ live)
}.

(** States a client can bring about. [free] may be called on anything. *)
Inductive reachable : state -> Prop :=
  | reach_new o now : reachable (DynamicParticlePool o now)
  | reach_getParticle fuel st r st' :
      reachable st -> getParticle fuel st = Some (r, st') -> reachable st'
  | reach_free a this st st' :
      reachable st -> freePoolParticle a this st = Ok st' -> reachable st'
  | reach_update now now' st :
      reachable st -> (now <= now')%Z -> reachable (update now now' st)
  | reach_increasePool ratio absoluteCount st :
      reachable st -> reachable (increasePool ratio absoluteCount st)
  | reach_decreasePool ratio absoluteCount st :
      reachable st -> reachable (decreasePool ratio absoluteCount st).

(** ** Further definitions used in the statements *)

Definition truthy (o : option number) : bool := if_truthy o (fun _ => true) false.

(** The readings of the clock at which a series of [update] calls runs the
    cleanup. *)
Fixpoint cleanups (ticks : list (Z * Z)) (st : state) : list (Z * Z) :=
  match ticks with
  | [] => []
  | (now, now') :: k =>
      if cleanup_due now st
      then (now, now') :: cleanups k (update now now' st)
      else cleanups k (update now now' st)
  end.

(** The log entries of one removed segment. *)
Definition disposal (p : pool) : list call :=
  [object3d_remove (mesh p); material_dispose (material p);
   geometry_dispose (gref (geometry p))].

(** ** Scenarios *)

Definition configure (max : number) (min pps : nat) : Options.t :=
  Options.Make (Some max) (Some min) (Some pps) (Some Infinity) None None.

Definition after_getParticles (n : nat) (st : state) : state :=
  match getParticles 2 n st with
  | Some (_, st') => st'
  | None => st
  end.

Definition after_free (p : particle) (st : state) : state :=
  match particle_free p st with
  | Ok st' => st'
  | Throw _ _ => st
  end.

(** Three segments of two particles, all six in use. *)
Definition three_full : state :=
  after_getParticles 6 (DynamicParticlePool (configure 6%Q 0 2) 0).

(** The limit is then lowered to three and a particle of the last
    segment is freed. *)
Definition shrunk : state :=
  after_free (Particle 14 13) (decreasePool None (Some 3%Q) three_full).

(** A minimum above the limit: three segments are created up front, and
    the first two are then used up. *)
Definition oversized : state :=
  after_getParticles 4 (DynamicParticlePool (configure 3%Q 6 2) 0).

(** Two segments of two particles; the first is used up, the second has
    one particle left. *)
Definition second_open : state :=
  after_getParticles 3 (DynamicParticlePool (configure 4%Q 0 2) 0).

(** One particle, allocated and then freed twice. *)
Definition double_freed : state :=
  after_free (Particle 2 1) (after_free (Particle 2 1)
    (after_getParticles 1 (DynamicParticlePool (configure 1%Q 0 1) 0))).

(** One pre-allocated segment of two particles. *)
Definition one_segment : state := DynamicParticlePool (configure 4%Q 2 2) 0.

(** Two pre-allocated segments of two particles. *)
Definition two_segments : state := DynamicParticlePool (configure 4%Q 4 2) 0.

(** A pool constructed with [maximumParticles: 0]. *)
Definition zero_limit : state := DynamicParticlePool (configure 0%Q 2 2) 0.

(** A pool whose limit was set below zero through [increasePool]. *)
Definition negative_limit : state := increasePool None (Some (-1)%Q) one_segment.

Definition release_all (rs : list (option particle)) (st : state) : state :=
  foldl (fun s r => match r with Some p => after_free p s | None => s end) st rs.

(** Three segments of two particles, all allocated and all freed again,
    with a cleanup interval of ten milliseconds. *)
Definition idle_three : state :=
  let st0 := DynamicParticlePool
               (Options.Make (Some 6%Q) (Some 0) (Some 2) (Some (Ms 10)) None None) 0 in
  match getParticles 2 6 st0 with
  | Some (rs, st) => release_all rs st
  | None => st0
  end.

(** A segment all of whose particles are in its queue. *)
Definition idle (h : gmap ref (list particle)) (p : pool) : Prop :=
  length (queue h p) = size p.

(** ** getStats *)

(** One element of [stats.pools]. *)
Module PoolStats.
Record t := Make {
  size : nat;
  available : nat
}.
End PoolStats.

(** The object [getStats] returns. [used] is a difference of two counts
    and is not known in advance to be non-negative, so it is an integer. *)
Module Stats.
Record t := Make {
  poolsCount : nat;
  particlesPerPool : nat;
  total : nat;
  available : nat;
  pools : list PoolStats.t;
  used : Z
}.
End Stats.

(** The [forEach] of [getStats]: the running values of [stats.total],
    [stats.available] and [stats.pools]. *)
Fixpoint stats_forEach (h : gmap ref (list particle)) (ps : list pool)
    (total available : nat) (entries : list PoolStats.t)
    : nat * nat * list PoolStats.t :=
  match ps with
  | [] => (total, available, entries)
  | pool :: rest =>
      stats_forEach h rest (total + size pool)
        (available + length (queue h pool))
        (entries ++ [PoolStats.Make (size pool) (length (queue h pool))])
  end.

Definition getStats (st : state) : Stats.t :=
  let '(total, available, entries) :=
    stats_forEach (arrays st) (pools st) 0 0 [] in
  Stats.Make (length (pools st)) (particlesPerGeometry (opts st))
             total available entries
             (Z.of_nat total - Z.of_nat available).

(** ** A client that frees only what it holds *)

(** The states such a client can bring about with all the operations of
    the pool, together with the particles it holds. *)
Inductive in_use : state -> list particle -> Prop :=
  | in_use_new o now : in_use (DynamicParticlePool o now) []
  | in_use_getParticle fuel st live r st' :
      in_use st live -> getParticle fuel st = Some (r, st') ->
      in_use st' (take_out r live)
  | in_use_free st live p st' :
      in_use st live -> p ∈ live -> particle_free p st = Ok st' ->
      in_use st' (give_back p live)
  | in_use_update now now' st live :
      in_use st live -> in_use (update now now' st) live
  | in_use_increasePool ratio absoluteCount st live :
      in_use st live -> in_use (increasePool ratio absoluteCount st) live
  | in_use_decreasePool ratio absoluteCount st live :
      in_use st live -> in_use (decreasePool ratio absoluteCount st) live.

(** The particles in use that belong to the segment [s]. *)
Definition held_from (s : pool) (live : list particle) : list particle :=
  filter (fun x => free x = available s) live.

(** The books of one segment: its particles are those created with it,
    each one either queued or in use. *)
Record segment_ok (st : state) (live : list particle) (s : pool) : Prop := SegmentOk {
  seg_perm : queue (arrays st) s ++ held_from s live ≡ₚ vertices (geometry s);
  seg_nodup : NoDup (vertices (geometry s));
  seg_size : size s = length (vertices (geometry s));
  seg_pps : size s = particlesPerGeometry (opts st);
  seg_own : Forall (fun x => free x = available s) (vertices (geometry s))
}.

Record accounted (st : state) (live : list particle) : Prop := Accounted {
  acc_wf : wf st;
  acc_live : NoDup live;
  acc_owner : Forall (fun x => free x ∈ available <$> pools st) live;
  acc_segments : Forall (segment_ok st live) (pools st)
}.

(** A client program run from a state with the particles it holds;
    [None] if a call runs out of fuel or a [release] is not of a particle
    in use. *)
Fixpoint client (fuel : nat) (ops : list op) (st : state) (live : list particle)
    : option (state * list particle) :=
  match ops with
  | [] => Some (st, live)
  | allocate :: k =>
      match getParticle fuel st with
      | Some (r, st') => client fuel k st' (take_out r live)
      | None => None
      end
  | release p :: k =>
      if decide (p ∈ live) then
        match particle_free p st with
        | Ok st' => client fuel k st' (give_back p live)
        | Throw _ _ => None
        end
      else None
  end.

(** Three segments of two particles with a cleanup interval of ten
    milliseconds; all six particles were allocated and all but the first
    were freed again. *)
Definition ten_ms_pool : state :=
  DynamicParticlePool
    (Options.Make (Some 6%Q) (Some 0) (Some 2) (Some (Ms 10)) None None) 0.

Definition busy_first : state * list particle :=
  default (ten_ms_pool, [])
    (client 2 [allocate; allocate; allocate; allocate; allocate; allocate;
               release (Particle 3 1); release (Particle 8 7);
               release (Particle 9 7); release (Particle 14 13);
               release (Particle 15 13)] ten_ms_pool []).



(** * Proofs *)

(** ** Numbers *)

Lemma gtb_true a b : gtb a b = true ↔ (b < a)%Q.
Proof.
  unfold gtb. rewrite negb_true_iff, <- not_true_iff_false, Qle_bool_iff.
  split; [apply Qnot_le_lt | apply Qlt_not_le].
Qed.

Lemma gtb_false a b : gtb a b = false ↔ (a <= b)%Q.
Proof. unfold gtb. by rewrite negb_false_iff, Qle_bool_iff. Qed.

Lemma ltb_true a b : ltb a b = true ↔ (a < b)%Q.
Proof. apply gtb_true. Qed.

Lemma ltb_false a b : ltb a b = false ↔ (b <= a)%Q.
Proof. apply gtb_false. Qed.

Lemma of_nat_le a b : a ≤ b → (of_nat a <= of_nat b)%Q.
Proof. intros H. unfold of_nat. rewrite <- Zle_Qle. lia. Qed.

Lemma of_nat_lt a b : (of_nat a < of_nat b)%Q → a < b.
Proof. unfold of_nat. rewrite <- Zlt_Qlt. lia. Qed.

(** ** Setters *)

Lemma set_arrays_id st : set_arrays (arrays st) st = st.
Proof. by destruct st. Qed.

Lemma total_size_app ps qs : total_size (ps ++ qs) = total_size ps + total_size qs.
Proof. induction ps as [|p ps IH]; simpl; [done | rewrite IH; lia]. Qed.

(** ** The scan of [pools.some] *)

Definition exhausted (h : gmap ref (list particle)) (p : pool) : Prop := queue h p = [].

(** Over exhausted segments the scan finds nothing and leaves the arrays
    alone; it either reaches the end with the sizes added up, or stops
    with [count] above the limit. *)
Lemma some_exhausted max ps c h :
  Forall (exhausted h) ps →
  ∃ c', some max ps c h = (None, c', h) ∧ c' ≤ c + total_size ps ∧
        (c' = c + total_size ps ∨ (max < of_nat c')%Q).
Proof.
  revert c. induction ps as [|p ps IH]; intros c Hall; simpl.
  - exists c. split_and!; [done | lia | left; lia].
  - inversion_clear Hall as [|?? Hp Hps]. rewrite Hp.
    destruct (gtb (of_nat (c + size p)) max) eqn:Hgt.
    + exists (c + size p). split_and!; [done | lia | right; by apply gtb_true].
    + destruct (IH (c + size p) Hps) as (c' & -> & Hle & Hc').
      exists c'. split_and!; [done | lia |].
      destruct Hc' as [-> | ?]; [left; lia | by right].
Qed.

(** Once the sizes of the exhausted segments met so far exceed the limit
    the scan stops, whatever comes after them. *)
Lemma some_stops max pre rest c h :
  Forall (exhausted h) pre → pre ≠ [] →
  (max < of_nat (c + total_size pre))%Q →
  ∃ c', some max (pre ++ rest) c h = (None, c', h) ∧ (max < of_nat c')%Q.
Proof.
  revert c. induction pre as [|p pre IH]; intros c Hall Hne Hlt; [done|].
  inversion_clear Hall as [|?? Hp Hpre]. simpl. rewrite Hp.
  destruct (gtb (of_nat (c + size p)) max) eqn:Hgt.
  - exists (c + size p). split; [done | by apply gtb_true].
  - destruct pre as [|p' pre'].
    + simpl in Hlt. apply gtb_false in Hgt.
      replace (c + (size p + 0)) with (c + size p) in Hlt by lia.
      exfalso. eapply Qlt_not_le; eauto.
    + apply (IH (c + size p)); [done | done |].
      simpl in *. by replace (c + size p + (size p' + total_size pre'))
        with (c + (size p + (size p' + total_size pre'))) by lia.
Qed.

(** The scan passes exhausted segments whose sizes stay within the limit
    and serves the front of the first queue it meets. *)
Lemma some_found max pre p rest c h x q :
  Forall (exhausted h) pre →
  pre = [] ∨ (of_nat (c + total_size pre) <= max)%Q →
  queue h p = x :: q →
  some max (pre ++ p :: rest) c h
  = (Some x, c + total_size pre, <[available p := q]> h).
Proof.
  revert c. induction pre as [|s pre IH]; intros c Hall Hle Hq; simpl.
  - rewrite Hq. do 2 f_equal. lia.
  - inversion_clear Hall as [|?? Hs Hpre]. rewrite Hs.
    destruct Hle as [? | Hle]; [done|]. simpl in Hle.
    assert (gtb (of_nat (c + size s)) max = false) as ->.
    { apply gtb_false. eapply Qle_trans; [|apply Hle]. apply of_nat_le. lia. }
    rewrite IH; [do 2 f_equal; lia | done | | done].
    right. by replace (c + size s + total_size pre) with (c + (size s + total_size pre)) by lia.
Qed.

(** What a scan can have done. *)
Lemma some_inv max ps c h r c' h' :
  some max ps c h = (r, c', h') →
  match r with
  | Some x => ∃ pre p rest q, ps = pre ++ p :: rest ∧ Forall (exhausted h) pre ∧
                queue h p = x :: q ∧ h' = <[available p := q]> h
  | None => h' = h
  end.
Proof.
  revert c. induction ps as [|p ps IH]; intros c; simpl.
  - intros [= <- <- <-]. done.
  - destruct (queue h p) as [|x q] eqn:Hq.
    + destruct (gtb (of_nat (c + size p)) max).
      * intros [= <- <- <-]. done.
      * intros H. apply IH in H. destruct r as [x|]; [|done].
        destruct H as (pre & p' & rest & q & -> & Hpre & Hq' & ->).
        exists (p :: pre), p', rest, q. split_and!; try done. by constructor.
    + intros [= <- <- <-]. exists [], p, ps, q. split_and!; try done.
Qed.

(** A scan that found nothing and ended within the limit has seen every
    segment exhausted. *)
Lemma some_none_within max ps c h c' h' :
  some max ps c h = (None, c', h') → (of_nat c' <= max)%Q →
  Forall (exhausted h) ps ∧ c' = c + total_size ps.
Proof.
  revert c. induction ps as [|p ps IH]; intros c; simpl.
  - intros [= <- <-] _. split; [constructor | lia].
  - destruct (queue h p) as [|x q] eqn:Hq; [|done].
    destruct (gtb (of_nat (c + size p)) max) eqn:Hgt.
    + intros [= <- <-] Hle. apply gtb_true in Hgt.
      exfalso. by eapply Qlt_not_le.
    + intros Hsome Hle. destruct (IH _ Hsome Hle) as [Hall ->].
      split; [by constructor | lia].
Qed.

(** ** Well-formedness is kept by every operation *)

Lemma wf_set_arrays h st : wf st → wf (set_arrays h st).
Proof. intros [? ? ?]. by constructor. Qed.

Lemma wf_createGeometry st : wf st → wf (createGeometry st).
Proof.
  intros [Hd Ha Hp]. constructor; simpl; [| |done].
  - rewrite fmap_app. apply NoDup_app. split_and!; [done | | apply NoDup_singleton].
    intros a Ha' ->%list_elem_of_singleton.
    apply list_elem_of_fmap in Ha' as (p & Hp' & Hin). simpl in Hp'.
    rewrite Forall_forall in Ha. apply Ha in Hin. lia.
  - apply Forall_app. split.
    + eapply Forall_impl; [exact Ha|]. simpl. intros; lia.
    + apply Forall_singleton. simpl. lia.
Qed.

Lemma wf_getOrCreateParticle fuel st r st' :
  wf st → getOrCreateParticle fuel st = Some (r, st') → wf st'.
Proof.
  revert st. induction fuel as [|fuel IH]; intros st Hwf; simpl; [done|].
  destruct (some _ _ _ _) as [[found c] h].
  destruct found as [x|].
  - intros [= <- <-]. by apply wf_set_arrays.
  - destruct (ltb _ _).
    + apply IH. by apply wf_createGeometry, wf_set_arrays.
    + intros [= <- <-]. by apply wf_set_arrays.
Qed.

Lemma wf_freePoolParticle a this st st' :
  wf st → freePoolParticle a this st = Ok st' → wf st'.
Proof.
  intros [? ? ?]. destruct this; simpl; try done.
  intros [= <-]. by constructor.
Qed.

Lemma dispose_pools_frame st l :
  let st' := foldl (fun s p => dispose_pool p s) st l in
  opts st' = opts st ∧ pools st' = pools st ∧ next st' = next st ∧
  lastCleanup st' = lastCleanup st ∧ positions st' = positions st.
Proof.
  revert st. induction l as [|p l IH]; intros st; simpl; [done|].
  destruct (IH (dispose_pool p st)) as (-> & -> & -> & -> & ->). done.
Qed.

Lemma splice_sublist {A} (l : list A) start n : (splice l start n).1 `sublist_of` l.
Proof.
  unfold splice. simpl. rewrite <- (take_drop start l) at 3.
  apply sublist_app; [done|]. rewrite <- drop_drop. apply sublist_drop.
Qed.

Lemma cleanUp_frame st :
  opts (cleanUp st) = opts st ∧ next (cleanUp st) = next st ∧
  lastCleanup (cleanUp st) = lastCleanup st ∧
  pools (cleanUp st) `sublist_of` pools st.
Proof.
  unfold cleanUp. destruct (1 <? _); [|done].
  pose proof (splice_sublist (pools st) (firstIdle (arrays st) (pools st) 0 0 + 1)
    (length (pools st) - firstIdle (arrays st) (pools st) 0 0 - 1)) as Hsub.
  destruct (splice _ _ _) as [kept removed]. simpl in Hsub.
  destruct (dispose_pools_frame (set_pools kept st) removed) as (-> & -> & -> & -> & _).
  done.
Qed.

Lemma wf_sublist st st' :
  wf st → opts st' = opts st → next st' = next st →
  pools st' `sublist_of` pools st → wf st'.
Proof.
  intros [Hd Ha Hp] Ho Hn Hsub. constructor.
  - apply (sublist_NoDup _ (available <$> pools st)); [done|].
    by apply fmap_sublist.
  - rewrite Hn, Forall_forall in *. intros p Hin. apply Ha.
    by eapply elem_of_sublist.
  - by rewrite Ho.
Qed.

Lemma wf_cleanUp st : wf st → wf (cleanUp st).
Proof.
  intros Hwf. destruct (cleanUp_frame st) as (? & ? & ? & ?).
  by eapply wf_sublist.
Qed.

Lemma available_needs_update (ps : list pool) :
  available <$> (needs_update <$> ps) = available <$> ps.
Proof. rewrite <- list_fmap_compose. by apply list_fmap_ext. Qed.

Lemma wf_needs_update st : wf st → wf (set_pools (needs_update <$> pools st) st).
Proof.
  intros [Hd Ha Hp]. constructor; simpl; [by rewrite available_needs_update | | done].
  apply Forall_fmap. eapply Forall_impl; [exact Ha | done].
Qed.

Lemma wf_update now now' st : wf st → wf (update now now' st).
Proof.
  intros Hwf. unfold update. destruct (cleanup_due _ _).
  - apply wf_needs_update, wf_cleanUp in Hwf. destruct Hwf. by constructor.
  - by apply wf_needs_update.
Qed.

Lemma wf_set_maximumParticles m st : wf st → wf (set_maximumParticles m st).
Proof. intros [? ? ?]. by constructor. Qed.

Lemma wf_increasePool ratio absoluteCount st :
  wf st → wf (increasePool ratio absoluteCount st).
Proof.
  intros Hwf. unfold increasePool, if_truthy.
  destruct absoluteCount as [c|]; [destruct (Qeq_bool c 0)|];
    by apply wf_set_maximumParticles.
Qed.

Lemma wf_decreasePool ratio absoluteCount st :
  wf st → wf (decreasePool ratio absoluteCount st).
Proof.
  intros Hwf. unfold decreasePool, if_truthy.
  destruct absoluteCount as [c|]; [destruct (Qeq_bool c 0)|];
    by apply wf_set_maximumParticles.
Qed.

Lemma defaults_positive o : 0 < particlesPerGeometry (defaults o).
Proof. simpl. destruct (Options.particlesPerGeometry o) as [[|n]|]; lia. Qed.

Lemma wf_iter_createGeometry n st : wf st → wf (Nat.iter n createGeometry st).
Proof. intros Hwf. induction n; simpl; [done | by apply wf_createGeometry]. Qed.

Lemma wf_DynamicParticlePool o now : wf (DynamicParticlePool o now).
Proof.
  apply wf_iter_createGeometry. constructor; simpl;
    [apply NoDup_nil_2 | constructor | apply defaults_positive].
Qed.

Lemma reachable_wf st : reachable st → wf st.
Proof.
  induction 1; eauto using wf_DynamicParticlePool, wf_getOrCreateParticle,
    wf_freePoolParticle, wf_update, wf_increasePool, wf_decreasePool.
Qed.

(** ** Queues and the store of arrays *)

Lemma queue_insert_eq h p l : queue (<[available p := l]> h) p = l.
Proof. apply lookup_total_insert_eq. Qed.

Lemma queue_insert_ne h a p l : a ≠ available p → queue (<[a := l]> h) p = queue h p.
Proof. intros. by apply lookup_total_insert_ne. Qed.

Lemma queued_app h ps qs : queued h (ps ++ qs) = queued h ps ++ queued h qs.
Proof. unfold queued. by rewrite fmap_app, join_app. Qed.

Lemma queued_cons h p ps : queued h (p :: ps) = queue h p ++ queued h ps.
Proof. done. Qed.

Lemma queued_insert_fresh h ps a l :
  a ∉ available <$> ps → queued (<[a := l]> h) ps = queued h ps.
Proof.
  induction ps as [|p ps IH]; [done|]. rewrite fmap_cons, not_elem_of_cons.
  intros [Hne Hnin]. rewrite !queued_cons, IH by done.
  by rewrite queue_insert_ne.
Qed.

Lemma app_swap_ends {A} (a b c : list A) : (a ++ b) ++ c ≡ₚ (c ++ b) ++ a.
Proof. by rewrite (comm (++) (a ++ b) c), (comm (++) a b), (assoc (++)). Qed.

(** Writing the array of one segment exchanges its old contents for the
    new ones among the queued particles. *)
Lemma queued_insert h ps a l :
  NoDup (available <$> ps) → a ∈ available <$> ps →
  queued (<[a := l]> h) ps ++ h !!! a ≡ₚ queued h ps ++ l.
Proof.
  induction ps as [|p ps IH]; [by intros _ ?%elem_of_nil|].
  rewrite fmap_cons, NoDup_cons. intros [Hnin Hnd] Hin.
  rewrite !queued_cons.
  destruct (decide (a = available p)) as [-> | Hne].
  - rewrite queue_insert_eq, queued_insert_fresh by done.
    apply app_swap_ends.
  - apply elem_of_cons in Hin as [? | Hin]; [done|].
    rewrite queue_insert_ne by done. rewrite <- !(assoc (++)).
    by rewrite IH.
Qed.

Lemma new_particles_spec n a id x :
  x ∈ new_particles n a id → id ≤ pid x < id + n ∧ free x = a.
Proof.
  revert id. induction n as [|n IH]; intros id; simpl; [by intros ?%elem_of_nil|].
  intros [-> | Hin]%elem_of_cons; simpl; [lia|].
  apply IH in Hin. lia.
Qed.

Lemma new_particles_NoDup n a id : NoDup (new_particles n a id).
Proof.
  revert id. induction n as [|n IH]; intros id; simpl; [apply NoDup_nil_2|].
  apply NoDup_cons. split; [|apply IH].
  intros Hin%new_particles_spec. simpl in Hin. lia.
Qed.

Lemma new_particles_length n a id : length (new_particles n a id) = n.
Proof. revert id. induction n as [|n IH]; intros id; simpl; [done | by rewrite IH]. Qed.

(** ** Consistency is kept by allocation and by freeing what is in use *)

Lemma queued_shift h ps p x q :
  NoDup (available <$> ps) → p ∈ ps → queue h p = x :: q →
  x :: queued (<[available p := q]> h) ps ≡ₚ queued h ps.
Proof.
  intros Hnd Hin Hq. apply (inj (.++ q)).
  rewrite <- queued_insert with (a := available p) (l := q).
  - unfold queue in Hq. rewrite Hq. simpl. by rewrite <- Permutation_middle.
  - done.
  - by apply list_elem_of_fmap_2.
Qed.

Lemma elem_of_queued h ps p x : p ∈ ps → x ∈ queue h p → x ∈ queued h ps.
Proof.
  intros Hp Hx. apply list_elem_of_join. exists (queue h p).
  split; [done | by apply list_elem_of_fmap_2].
Qed.

Lemma consistent_shift st live pre p rest x q :
  consistent st live →
  pools st = pre ++ p :: rest → queue (arrays st) p = x :: q →
  consistent (set_arrays (<[available p := q]> (arrays st)) st) (x :: live).
Proof.
  intros [Hwf Hnd Hfr] Hps Hq.
  assert (x :: queued (<[available p := q]> (arrays st)) (pools st)
          ≡ₚ queued (arrays st) (pools st)) as Hperm.
  { apply queued_shift; [apply Hwf | | done]. rewrite Hps.
    apply elem_of_app. right. apply elem_of_cons. by left. }
  constructor; simpl.
  - by apply wf_set_arrays.
  - by rewrite <- Permutation_middle, app_comm_cons, Hperm.
  - by rewrite <- Permutation_middle, app_comm_cons, Hperm.
Qed.

Lemma queued_createGeometry st :
  wf st →
  queued (arrays (createGeometry st)) (pools (createGeometry st))
  = queued (arrays st) (pools st)
    ++ new_particles (particlesPerGeometry (opts st)) (S (next st)) (S (S (next st))).
Proof.
  intros [_ Ha _]. unfold createGeometry; cbn [arrays pools].
  rewrite queued_app, queued_insert_fresh.
  - rewrite queued_cons. unfold queue; cbn [available].
    rewrite lookup_total_insert_eq. unfold queued; simpl. by rewrite app_nil_r.
  - intros (p & Hp & Hin)%list_elem_of_fmap.
    rewrite Forall_forall in Ha. apply Ha in Hin. lia.
Qed.

Lemma consistent_createGeometry st live :
  consistent st live → consistent (createGeometry st) live.
Proof.
  intros [Hwf Hnd Hfr]. constructor.
  - by apply wf_createGeometry.
  - rewrite queued_createGeometry by done.
    rewrite <- (assoc (++)), (comm (++) (new_particles _ _ _)), (assoc (++)).
    apply NoDup_app. split_and!; [done | | apply new_particles_NoDup].
    intros x Hx Hin%new_particles_spec. rewrite Forall_forall in Hfr.
    apply Hfr in Hx. lia.
  - rewrite queued_createGeometry by done.
    rewrite !Forall_app in *. destruct Hfr as [Hq Hl]. split_and!.
    + eapply Forall_impl; [exact Hq|]. simpl. intros; lia.
    + apply Forall_forall. intros x Hin%new_particles_spec. simpl. lia.
    + eapply Forall_impl; [exact Hl|]. simpl. intros; lia.
Qed.

Lemma consistent_getOrCreateParticle fuel st live r st' :
  consistent st live → getOrCreateParticle fuel st = Some (r, st') →
  consistent st' (take_out r live).
Proof.
  revert st. induction fuel as [|fuel IH]; intros st Hc; simpl; [done|].
  destruct (some _ _ _ _) as [[found c] h] eqn:Hsome.
  apply some_inv in Hsome. destruct found as [x|].
  - destruct Hsome as (pre & p & rest & q & Hps & _ & Hq & ->).
    intros [= <- <-]. by eapply consistent_shift.
  - subst h. rewrite set_arrays_id. destruct (ltb _ _).
    + apply IH. by apply consistent_createGeometry.
    + by intros [= <- <-].
Qed.

Lemma give_back_sublist p live : give_back p live `sublist_of` live.
Proof. apply sublist_filter. Qed.

Lemma consistent_particle_free st live p st' :
  consistent st live → p ∈ live → particle_free p st = Ok st' →
  consistent st' (give_back p live).
Proof.
  intros [Hwf Hnd Hfr] Hin [= <-].
  pose proof Hnd as (Hndq & Hdisj & Hndl)%NoDup_app.
  assert (p ∉ queued (arrays st) (pools st)) as Hpq by (intros ?; by eapply Hdisj).
  assert (p ∉ give_back p live) as Hpl.
  { unfold give_back. rewrite list_elem_of_filter. by intros [? _]. }
  assert (NoDup (queued (arrays st) (pools st) ++ give_back p live)) as Hnd'.
  { eapply sublist_NoDup; [exact Hnd|]. apply sublist_app; [done | apply give_back_sublist]. }
  assert (Forall (fun q => pid q < next st)
            (queued (arrays st) (pools st) ++ give_back p live)) as Hfr'.
  { rewrite Forall_forall in *. intros q Hq. apply Hfr.
    eapply elem_of_sublist; [exact Hq|].
    apply sublist_app; [done | apply give_back_sublist]. }
  destruct (decide (free p ∈ available <$> pools st)) as [Hown | Hown].
  - assert (queued (<[free p := (arrays st !!! free p) ++ [p]]> (arrays st)) (pools st)
            ≡ₚ p :: queued (arrays st) (pools st)) as Hperm.
    { apply (inj (.++ (arrays st !!! free p))). rewrite queued_insert; [|apply Hwf|done].
      by rewrite (assoc (++)), <- Permutation_cons_append. }
    constructor; simpl.
    + destruct Hwf. by constructor.
    + rewrite Hperm. simpl. apply NoDup_cons. split; [|done].
      rewrite elem_of_app. by intros [?|?].
    + rewrite Hperm. simpl. constructor; [|done].
      rewrite Forall_forall in Hfr. apply Hfr, elem_of_app. by right.
  - constructor; simpl.
    + destruct Hwf. by constructor.
    + by rewrite queued_insert_fresh.
    + by rewrite queued_insert_fresh.
Qed.

Lemma consistent_fresh st live x : consistent st (x :: live) → x ∉ live.
Proof.
  intros [_ Hnd _]. apply NoDup_app in Hnd as (_ & _ & Hnd).
  by apply NoDup_cons in Hnd as [? _].
Qed.

Lemma consistent_DynamicParticlePool o now : consistent (DynamicParticlePool o now) [].
Proof.
  unfold DynamicParticlePool. generalize (ceil_div (minimumParticles (defaults o))
    (particlesPerGeometry (defaults o))). intros n.
  induction n as [|n IH]; simpl.
  - constructor; simpl; [|apply NoDup_nil_2 | constructor].
    constructor; simpl; [apply NoDup_nil_2 | constructor | apply defaults_positive].
  - by apply consistent_createGeometry.
Qed.

(** ** Allocation: the outcomes of [getOrCreateParticle] *)

Lemma getParticle_served st fuel pre p rest x q :
  pools st = pre ++ p :: rest →
  Forall (exhausted (arrays st)) pre →
  pre = [] ∨ (of_nat (total_size pre) <= maximumParticles (opts st))%Q →
  queue (arrays st) p = x :: q →
  getParticle (S fuel) st
  = Some (Some x, set_arrays (<[available p := q]> (arrays st)) st).
Proof.
  intros Hps Hpre Hle Hq. unfold getParticle. simpl.
  rewrite Hps, (some_found _ pre p rest 0 _ x q); done.
Qed.

Lemma getParticle_stops st fuel pre rest :
  pools st = pre ++ rest → pre ≠ [] →
  Forall (exhausted (arrays st)) pre →
  (maximumParticles (opts st) < of_nat (total_size pre))%Q →
  getParticle (S fuel) st = Some (None, st).
Proof.
  intros Hps Hne Hpre Hlt. unfold getParticle. simpl. rewrite Hps.
  destruct (some_stops (maximumParticles (opts st)) pre rest 0 (arrays st))
    as (c & -> & Hc); [done..|].
  assert (ltb (of_nat c) (maximumParticles (opts st)) = false) as ->.
  { apply ltb_false. by apply Qlt_le_weak. }
  by rewrite set_arrays_id.
Qed.

Lemma getParticle_full st fuel :
  Forall (exhausted (arrays st)) (pools st) →
  (maximumParticles (opts st) <= of_nat (total_size (pools st)))%Q →
  getParticle (S fuel) st = Some (None, st).
Proof.
  intros Hall Hle. unfold getParticle. simpl.
  destruct (some_exhausted (maximumParticles (opts st)) (pools st) 0 (arrays st) Hall)
    as (c & -> & _ & Hc).
  assert (ltb (of_nat c) (maximumParticles (opts st)) = false) as ->.
  { apply ltb_false. destruct Hc as [-> | Hc]; [done | by apply Qlt_le_weak]. }
  by rewrite set_arrays_id.
Qed.

Lemma reachable_getParticles fuel n st rs st' :
  reachable st → getParticles fuel n st = Some (rs, st') → reachable st'.
Proof.
  revert st rs. induction n as [|n IH]; intros st rs Hr; simpl.
  - by intros [= <- <-].
  - destruct (getParticle fuel st) as [[r st1]|] eqn:Hget; [|done].
    destruct (getParticles fuel n st1) as [[rs' st2]|] eqn:Hrest; [|done].
    intros [= <- <-]. eapply IH; [|exact Hrest]. by eapply reach_getParticle.
Qed.

Lemma reachable_after_getParticles n st :
  reachable st → reachable (after_getParticles n st).
Proof.
  intros Hr. unfold after_getParticles.
  destruct (getParticles 2 n st) as [[rs st']|] eqn:Hget; [|done].
  by eapply reachable_getParticles.
Qed.

Lemma reachable_three_full : reachable three_full.
Proof. apply reachable_after_getParticles, reach_new. Qed.

Lemma reachable_shrunk : reachable shrunk.
Proof.
  eapply (reach_free 13 (this_particle (Particle 14 13))); [|reflexivity].
  apply reach_decreasePool, reachable_three_full.
Qed.

Lemma reachable_oversized : reachable oversized.
Proof. apply reachable_after_getParticles, reach_new. Qed.

(** * The claims *)

(** ** Exhaustion at the limit *)

(** C3: when every segment's available queue is empty and the sizes of the
    segments add up to [maximumParticles] or more, [getParticle] returns
    null and creates no segment: the state, and with it the number of
    segments, is unchanged. *)
Theorem C3_exhausted_at_limit_returns_null st fuel :
  Forall (exhausted (arrays st)) (pools st) →
  (maximumParticles (opts st) <= of_nat (total_size (pools st)))%Q →
  ∃ st', getParticle (S fuel) st = Some (None, st') ∧
         length (pools st') = length (pools st) ∧ st' = st.
Proof.
  intros Hall Hle. exists st. split_and!; try done. by apply getParticle_full.
Qed.

Lemma C3_witness :
  Forall (exhausted (arrays three_full)) (pools three_full) ∧
  ∃ st', getParticle 1 three_full = Some (None, st') ∧
         length (pools st') = length (pools three_full) ∧ st' = three_full.
Proof.
  assert (Forall (exhausted (arrays three_full)) (pools three_full)) as Hall.
  { vm_compute. repeat constructor. }
  split; [exact Hall|].
  apply (C3_exhausted_at_limit_returns_null three_full 0 Hall).
  vm_compute. discriminate.
Defined.

(** ** The scan gives up before it reaches a free particle *)

(** C10: there is a state a client can reach in which some segment has a
    particle available and [getParticle] returns null all the same; in
    general, as soon as the sizes of the exhausted segments at the head of
    the list add up to more than [maximumParticles], the scan stops and
    whatever the later segments hold is not considered. *)
Theorem C10_scan_stops_before_available :
  (∃ st, reachable st ∧
         (∃ p, p ∈ pools st ∧ queue (arrays st) p ≠ []) ∧
         ∀ fuel, getParticle (S fuel) st = Some (None, st)) ∧
  (∀ st pre rest fuel,
     pools st = pre ++ rest → pre ≠ [] →
     Forall (exhausted (arrays st)) pre →
     (maximumParticles (opts st) < of_nat (total_size pre))%Q →
     getParticle (S fuel) st = Some (None, st)).
Proof.
  split.
  - exists shrunk. split_and!.
    + apply reachable_shrunk.
    + exists (Pool (Geometry 12 [Particle 14 13; Particle 15 13] false) 16 17 13 2).
      split; [vm_compute; set_solver | by vm_compute].
    + intros fuel.
      apply (getParticle_stops shrunk fuel (take 2 (pools shrunk)) (drop 2 (pools shrunk)));
        [by vm_compute | by vm_compute | vm_compute; repeat constructor | by vm_compute].
  - intros st pre rest fuel. apply getParticle_stops.
Qed.

Lemma C10_witness :
  (maximumParticles (opts shrunk) < of_nat (total_size (take 2 (pools shrunk))))%Q ∧
  getParticle 1 shrunk = Some (None, shrunk).
Proof.
  assert (maximumParticles (opts shrunk) < of_nat (total_size (take 2 (pools shrunk))))%Q
    as Hlt by (by vm_compute).
  split; [exact Hlt|].
  apply (proj2 C10_scan_stops_before_available shrunk
           (take 2 (pools shrunk)) (drop 2 (pools shrunk)) 0).
  - by vm_compute.
  - by vm_compute.
  - vm_compute. repeat constructor.
  - exact Hlt.
Defined.

Lemma other_segment_other_array st pre p rest s :
  wf st → pools st = pre ++ p :: rest → s ∈ pre ++ rest →
  available p ≠ available s.
Proof.
  intros Hwf Hps Hs Heq.
  pose proof (wf_distinct st Hwf) as Hnd. rewrite Hps, fmap_app, fmap_cons in Hnd.
  apply NoDup_app in Hnd as (_ & Hdisj & Hnd). apply NoDup_cons in Hnd as [Hnin _].
  apply elem_of_app in Hs as [Hs | Hs].
  - apply (Hdisj (available s)); [by apply list_elem_of_fmap_2|].
    rewrite <- Heq. apply elem_of_cons. by left.
  - apply Hnin. rewrite Heq. by apply list_elem_of_fmap_2.
Qed.

(** ** Allocation serves the earliest segment that has a particle *)

(** The claim C1 fails as stated: in the reachable state [oversized] the
    third segment has two particles available, yet [getParticle] returns
    null, because the two exhausted segments before it already hold more
    than [maximumParticles]. *)
Lemma C1_counterexample :
  reachable oversized ∧
  (∃ p, p ∈ pools oversized ∧ queue (arrays oversized) p ≠ []) ∧
  ∀ fuel, getParticle (S fuel) oversized = Some (None, oversized).
Proof.
  split_and!.
  - apply reachable_oversized.
  - exists (Pool (Geometry 12 [Particle 14 13; Particle 15 13] false) 16 17 13 2).
    split; [vm_compute; set_solver | by vm_compute].
  - intros fuel.
    apply (getParticle_stops oversized fuel (take 2 (pools oversized))
             (drop 2 (pools oversized)));
      [by vm_compute | by vm_compute | vm_compute; repeat constructor | by vm_compute].
Qed.

(** Nor does a returned particle always leave the queues: nothing stops a
    client from freeing a particle twice, and the second copy stays
    behind. *)
Lemma getParticle_after_double_free :
  ∃ st', getParticle 1 double_freed = Some (Some (Particle 2 1), st') ∧
         Particle 2 1 ∈ queued (arrays st') (pools st').
Proof. eexists. split; [by vm_compute|]. vm_compute. set_solver. Qed.

(** C1, amended: let [p] be the earliest segment with a non-empty queue,
    and let the sizes of the exhausted segments before it add up to no
    more than [maximumParticles]. Then [getParticle] returns the front of
    the queue of [p] and removes it from there, creates no segment and
    leaves the queue of every other segment as it was; and if no particle
    was queued twice, the returned one is in no queue any more. *)
Theorem C1_getParticle_serves_earliest st pre p rest x q fuel :
  wf st →
  pools st = pre ++ p :: rest →
  Forall (exhausted (arrays st)) pre →
  queue (arrays st) p = x :: q →
  pre = [] ∨ (of_nat (total_size pre) <= maximumParticles (opts st))%Q →
  ∃ st', getParticle (S fuel) st = Some (Some x, st') ∧
         pools st' = pools st ∧
         queue (arrays st') p = q ∧
         (∀ s, s ∈ pre ++ rest → queue (arrays st') s = queue (arrays st) s) ∧
         (NoDup (queued (arrays st) (pools st)) →
          ∀ s, s ∈ pools st' → x ∉ queue (arrays st') s).
Proof.
  intros Hwf Hps Hpre Hq Hle.
  exists (set_arrays (<[available p := q]> (arrays st)) st). split_and!.
  - by eapply getParticle_served.
  - done.
  - apply queue_insert_eq.
  - intros s Hs. apply queue_insert_ne. by eapply other_segment_other_array.
  - simpl. intros Hnd s Hs Hx.
    assert (p ∈ pools st) as Hp.
    { rewrite Hps. apply elem_of_app. right. apply elem_of_cons. by left. }
    pose proof (queued_shift (arrays st) (pools st) p x q (wf_distinct st Hwf) Hp Hq)
      as Hperm.
    rewrite <- Hperm in Hnd.
    apply NoDup_cons in Hnd as [Hnin _]. apply Hnin. by apply (elem_of_queued _ _ s).
Qed.

Lemma C1_witness :
  wf second_open ∧
  ∃ st', getParticle 1 second_open = Some (Some (Particle 9 7), st') ∧
         pools st' = pools second_open ∧
         queue (arrays st') (Pool (Geometry 6 [Particle 8 7; Particle 9 7] false) 10 11 7 2) = [] ∧
         (∀ s, s ∈ take 1 (pools second_open) ++ []
               → queue (arrays st') s = queue (arrays second_open) s) ∧
         (NoDup (queued (arrays second_open) (pools second_open)) →
          ∀ s, s ∈ pools st' → Particle 9 7 ∉ queue (arrays st') s).
Proof.
  assert (wf second_open) as Hwf.
  { apply reachable_wf, reachable_after_getParticles, reach_new. }
  split; [exact Hwf|].
  apply (C1_getParticle_serves_earliest second_open (take 1 (pools second_open))
           (Pool (Geometry 6 [Particle 8 7; Particle 9 7] false) 10 11 7 2)
           [] (Particle 9 7) [] 0 Hwf).
  - by vm_compute.
  - vm_compute. repeat constructor.
  - by vm_compute.
  - right. vm_compute. discriminate.
Defined.

(** ** Growth: one new segment, and the retry finds its first particle *)

Lemma getOrCreateParticle_found fuel st x c h :
  some (maximumParticles (opts st)) (pools st) 0 (arrays st) = (Some x, c, h) →
  getOrCreateParticle (S fuel) st = Some (Some x, set_arrays h st).
Proof. intros H. simpl. by rewrite H. Qed.

Lemma getOrCreateParticle_null fuel st c h :
  some (maximumParticles (opts st)) (pools st) 0 (arrays st) = (None, c, h) →
  ltb (of_nat c) (maximumParticles (opts st)) = false →
  getOrCreateParticle (S fuel) st = Some (None, set_arrays h st).
Proof. intros H Hlt. simpl. by rewrite H, Hlt. Qed.

Lemma getOrCreateParticle_retry fuel st c h :
  some (maximumParticles (opts st)) (pools st) 0 (arrays st) = (None, c, h) →
  ltb (of_nat c) (maximumParticles (opts st)) = true →
  getOrCreateParticle (S fuel) st
  = getOrCreateParticle fuel (createGeometry (set_arrays h st)).
Proof. intros H Hlt. simpl. by rewrite H, Hlt. Qed.

Lemma new_particles_cons n a id :
  new_particles (S n) a id = Particle id a :: new_particles n a (S id).
Proof. done. Qed.

(** When every segment is exhausted and their sizes stay below the limit,
    [getParticle] appends one segment and returns its first particle. *)
Lemma getParticle_grows st fuel :
  wf st →
  Forall (exhausted (arrays st)) (pools st) →
  (of_nat (total_size (pools st)) < maximumParticles (opts st))%Q →
  ∃ q, new_particles (particlesPerGeometry (opts st)) (S (next st)) (S (S (next st)))
       = Particle (S (S (next st))) (S (next st)) :: q ∧
       getParticle (S (S fuel)) st
       = Some (Some (Particle (S (S (next st))) (S (next st))),
               set_arrays (<[S (next st) := q]> (arrays (createGeometry st)))
                 (createGeometry st)).
Proof.
  intros Hwf Hall Hlt.
  destruct (some_exhausted (maximumParticles (opts st)) (pools st) 0 (arrays st) Hall)
    as (c & Hsome & Hle & Hc).
  assert (c = total_size (pools st)) as ->.
  { destruct Hc as [-> | Hc]; [done|]. exfalso.
    apply (Qlt_irrefl (maximumParticles (opts st))).
    eapply Qlt_le_trans; [exact Hc|]. apply Qlt_le_weak.
    eapply Qle_lt_trans; [|exact Hlt]. by apply of_nat_le. }
  destruct (particlesPerGeometry (opts st)) as [|n] eqn:Hn.
  { destruct Hwf as [_ _ Hpos]. lia. }
  exists (new_particles n (S (next st)) (S (S (S (next st))))).
  split; [done|]. unfold getParticle.
  rewrite (getOrCreateParticle_retry _ _ _ _ Hsome) by by apply ltb_true.
  rewrite set_arrays_id.
  apply (getParticle_served (createGeometry st) fuel (pools st)
           (Pool (Geometry (next st)
                    (new_particles (S n) (S (next st)) (S (S (next st)))) false)
                 (S (S (next st)) + S n) (S (S (S (next st)) + S n)) (S (next st))
                 (length (new_particles (S n) (S (next st)) (S (S (next st))))))
           []).
  - unfold createGeometry. by rewrite Hn.
  - unfold createGeometry; cbn [arrays]. rewrite Forall_forall in *.
    intros s Hs. unfold exhausted. rewrite queue_insert_ne; [by apply Hall|].
    destruct Hwf as [_ Ha _]. rewrite Forall_forall in Ha. apply Ha in Hs. lia.
  - right. by apply Qlt_le_weak.
  - unfold createGeometry, queue; cbn [arrays available].
    by rewrite lookup_total_insert_eq, Hn.
Qed.

(** With fuel for one retry the function always returns. *)
Lemma getParticle_total st fuel :
  wf st → ∃ r st', getParticle (S (S fuel)) st = Some (r, st').
Proof.
  intros Hwf. unfold getParticle.
  destruct (some (maximumParticles (opts st)) (pools st) 0 (arrays st))
    as [[found c] h] eqn:Hsome.
  destruct found as [x|].
  - rewrite (getOrCreateParticle_found _ _ _ _ _ Hsome). eauto.
  - destruct (ltb (of_nat c) (maximumParticles (opts st))) eqn:Hlt.
    + pose proof (some_inv _ _ _ _ _ _ _ Hsome) as ->. apply ltb_true in Hlt.
      destruct (some_none_within _ _ _ _ _ _ Hsome) as [Hall Hc];
        [by apply Qlt_le_weak|]. simpl in Hc. subst c.
      destruct (getParticle_grows st fuel Hwf Hall Hlt) as (q & _ & Hget).
      unfold getParticle in Hget. rewrite Hget. eauto.
    + rewrite (getOrCreateParticle_null _ _ _ _ Hsome Hlt). eauto.
Qed.

(** ** Uniqueness of the particles in use *)

Lemma run_length fuel ops st :
  wf st → length (run (S (S fuel)) ops st) = length ops.
Proof.
  revert st. induction ops as [|[|p] ops IH]; intros st Hwf; [done| |].
  - cbn [run]. destruct (getParticle_total st fuel Hwf) as (r & st' & Hget).
    rewrite Hget. simpl. f_equal. apply IH.
    by eapply wf_getOrCreateParticle.
  - cbn [run]. destruct (particle_free p st) as [st'|] eqn:Hfree; [|done].
    simpl. f_equal. apply IH. unfold particle_free in Hfree.
    by eapply wf_freePoolParticle.
Qed.

(** While the client frees only what it holds, a particle in use is not
    returned before it is freed, and none is returned twice without a free
    in between. *)
Lemma run_unique fuel ops st live :
  consistent st live → disciplined fuel ops st live →
  (∀ j p, p ∈ live → run fuel ops st !! j = Some (returned (Some p)) →
          ∃ k, k < j ∧ run fuel ops st !! k = Some (freed p)) ∧
  unique_live (run fuel ops st).
Proof.
  revert st live. induction ops as [|[|p] ops IH]; intros st live Hc Hd.
  - split; [by intros j p _ ?|by intros i j p _ ?].
  - cbn [run disciplined] in *.
    destruct (getParticle fuel st) as [[r st']|] eqn:Hget;
      [|split; [by intros j p _ ?|by intros i j p _ ?]].
    pose proof (consistent_getOrCreateParticle _ _ _ _ _ Hc Hget) as Hc'.
    destruct (IH _ _ Hc' Hd) as [Hlive Huniq]. split.
    + intros [|j] q Hq Hj; simpl in Hj.
      * injection Hj as ->. by apply consistent_fresh in Hc'.
      * destruct (Hlive j q) as (k & Hk & Hfreed); [|done|].
        { destruct r; [by apply elem_of_cons; right | done]. }
        exists (S k). split; [lia | done].
    + intros [|i] [|j] q Hij Hi Hj; simpl in Hi, Hj; try lia.
      * injection Hi as ->. destruct (Hlive j q) as (k & Hk & Hfreed); [|done|].
        { apply elem_of_cons. by left. }
        exists (S k). split; [lia | done].
      * destruct (Huniq i j q) as (k & Hk & Hfreed); [lia | done | done |].
        exists (S k). split; [lia | done].
  - cbn [run disciplined] in *. destruct Hd as [Hin Hd].
    destruct (particle_free p st) as [st'|] eqn:Hfree; [|done].
    pose proof (consistent_particle_free _ _ _ _ Hc Hin Hfree) as Hc'.
    destruct (IH _ _ Hc' Hd) as [Hlive Huniq]. split.
    + intros [|j] q Hq Hj; simpl in Hj; [done|].
      destruct (decide (q = p)) as [-> | Hne].
      * exists 0. split; [lia | done].
      * destruct (Hlive j q) as (k & Hk & Hfreed); [|done|].
        { unfold give_back. by apply list_elem_of_filter. }
        exists (S k). split; [lia | done].
    + intros [|i] [|j] q Hij Hi Hj; simpl in Hi, Hj; try done; try lia.
      destruct (Huniq i j q) as (k & Hk & Hfreed); [lia | done | done |].
      exists (S k). split; [lia | done].
Qed.

(** The claim C2 fails as stated: after [p.free()] is called twice on the
    same particle, two allocations in a row return it. *)
Lemma C2_counterexample :
  ¬ unique_live
      (run 2 [allocate; release (Particle 2 1); release (Particle 2 1);
              allocate; allocate]
           (DynamicParticlePool (configure 1%Q 0 1) 0)).
Proof.
  intros H. destruct (H 3 4 (Particle 2 1)) as (k & Hk & _); [lia | done | done | lia].
Qed.

(** C2, amended: in every run of allocations and frees from a new pool in
    which each [p.free()] is called on a particle in use (returned and not
    freed since), every call returns, and no particle is returned a second
    time unless it was freed in between. *)
Theorem C2_unique_live_particles o now ops fuel :
  disciplined (S (S fuel)) ops (DynamicParticlePool o now) [] →
  length (run (S (S fuel)) ops (DynamicParticlePool o now)) = length ops ∧
  unique_live (run (S (S fuel)) ops (DynamicParticlePool o now)).
Proof.
  intros Hd. split.
  - apply run_length, wf_DynamicParticlePool.
  - eapply run_unique; [apply consistent_DynamicParticlePool | exact Hd].
Qed.

Lemma C2_witness :
  let ops := [allocate; allocate; release (Particle 2 1); allocate; allocate] in
  let st := DynamicParticlePool (configure 4%Q 0 2) 0 in
  run 2 ops st
  = [returned (Some (Particle 2 1)); returned (Some (Particle 3 1));
     freed (Particle 2 1); returned (Some (Particle 2 1));
     returned (Some (Particle 8 7))] ∧
  length (run 2 ops st) = length ops ∧ unique_live (run 2 ops st).
Proof.
  split; [by vm_compute|].
  apply (C2_unique_live_particles (configure 4%Q 0 2) 0
           [allocate; allocate; release (Particle 2 1); allocate; allocate] 0).
  vm_compute. split; [|done]. apply elem_of_cons. right. apply elem_of_cons. by left.
Defined.

(** ** Free followed by allocate *)

(** The claim C5 fails as stated: a freed particle goes to the back of its
    queue and the next allocation takes the front, so with another
    particle waiting in the segment that one is returned. *)
Lemma C5_counterexample :
  run 2 [allocate; release (Particle 2 1); allocate] one_segment
  = [returned (Some (Particle 2 1)); freed (Particle 2 1);
     returned (Some (Particle 3 1))].
Proof. by vm_compute. Qed.

(** C5, amended: if the segment of a particle and the segments before it
    have empty queues, and the sizes of the segments before it add up to
    no more than [maximumParticles], then [p.free()] followed by
    [getParticle] returns that same particle. *)
Theorem C5_free_then_getParticle st pre p rest h fuel :
  wf st →
  pools st = pre ++ p :: rest →
  free h = available p →
  Forall (exhausted (arrays st)) pre →
  exhausted (arrays st) p →
  pre = [] ∨ (of_nat (total_size pre) <= maximumParticles (opts st))%Q →
  ∃ st1 st2, particle_free h st = Ok st1 ∧
             getParticle (S fuel) st1 = Some (Some h, st2) ∧
             pools st2 = pools st.
Proof.
  intros Hwf Hps Hown Hpre Hp Hle. unfold particle_free, freePoolParticle.
  set (st1 := set_arrays _ _).
  assert (queue (arrays st1) p = [h]) as Hq.
  { unfold st1; cbn [arrays set_arrays set_positions].
    rewrite Hown, queue_insert_eq. unfold exhausted, queue in Hp. by rewrite Hp. }
  assert (Forall (exhausted (arrays st1)) pre) as Hpre1.
  { unfold st1; cbn [arrays set_arrays set_positions]. rewrite Forall_forall in *.
    intros s Hs. unfold exhausted. rewrite queue_insert_ne; [by apply Hpre|].
    rewrite Hown. eapply other_segment_other_array; [done.. |].
    apply elem_of_app. by left. }
  exists st1, (set_arrays (<[available p := []]> (arrays st1)) st1).
  split_and!; [done | | done].
  by apply (getParticle_served st1 fuel pre p rest h []).
Qed.

Lemma C5_witness :
  exhausted (arrays three_full) (Pool (Geometry 0 [Particle 2 1; Particle 3 1] false) 4 5 1 2) ∧
  ∃ st1 st2, particle_free (Particle 3 1) three_full = Ok st1 ∧
             getParticle 1 st1 = Some (Some (Particle 3 1), st2) ∧
             pools st2 = pools three_full.
Proof.
  split; [by vm_compute|].
  apply (C5_free_then_getParticle three_full []
           (Pool (Geometry 0 [Particle 2 1; Particle 3 1] false) 4 5 1 2)
           (drop 1 (pools three_full)) (Particle 3 1) 0).
  - apply reachable_wf, reachable_three_full.
  - by vm_compute.
  - reflexivity.
  - constructor.
  - by vm_compute.
  - by left.
Defined.

(** ** The guard of [freePoolParticle] *)

(** The claim C6 fails as stated: the closure of the first segment, called
    on a particle of the second segment, raises no error and pushes that
    particle onto the queue of the first segment. *)
Lemma C6_counterexample :
  free (Particle 8 7) ≠ 1 ∧
  ∃ st', freePoolParticle 1 (this_particle (Particle 8 7)) two_segments = Ok st' ∧
         arrays two_segments !!! 1 = [Particle 2 1; Particle 3 1] ∧
         arrays st' !!! 1 = [Particle 2 1; Particle 3 1; Particle 8 7].
Proof. split; [done|]. eexists. split; [reflexivity|]. by vm_compute. Qed.

(** C6, amended: the closure throws, and leaves the state with every queue
    as it was, in three cases: called without a context, or on a value
    whose [free] is not a function, it throws the error of its guard;
    called on a context with a function as [free] but none as [set], it
    throws a [TypeError] at [this.set]. On a particle, of whichever
    segment, it succeeds: the particle is moved to the off-screen
    position and pushed onto the array the closure captured, and no other
    array changes. For [p.free()] on a particle of a live segment that
    array is the queue of the particle's own segment. *)
Theorem C6_free_guard :
  (∀ a st,
     freePoolParticle a this_undefined st = Throw Error_original_context st ∧
     freePoolParticle a this_plain st = Throw Error_original_context st ∧
     freePoolParticle a this_no_set st = Throw TypeError_not_a_function st) ∧
  (∀ a this e st st', freePoolParticle a this st = Throw e st' →
     st' = st ∧
     (∀ s, queue (arrays st') s = queue (arrays st) s) ∧
     (∀ p, this ≠ this_particle p)) ∧
  (∀ a p st, ∃ st',
     freePoolParticle a (this_particle p) st = Ok st' ∧
     positions st' !! pid p = Some (offScreenPosition (opts st)) ∧
     arrays st' !!! a = (arrays st !!! a) ++ [p] ∧
     (∀ b, b ≠ a → arrays st' !!! b = arrays st !!! b) ∧
     pools st' = pools st) ∧
  (∀ p s st, s ∈ pools st → free p = available s →
     ∃ st', particle_free p st = Ok st' ∧
            queue (arrays st') s = queue (arrays st) s ++ [p]).
Proof.
  split_and!.
  - done.
  - intros a this e st st' Hthrow.
    destruct this; simpl in Hthrow; try done; by injection Hthrow as <- <-.
  - intros a p st. eexists. split; [done|]. cbn. split_and!.
    + apply lookup_insert_eq.
    + apply lookup_total_insert_eq.
    + intros b Hb. by apply lookup_total_insert_ne.
    + done.
  - intros p s st _ Hown. eexists. split; [done|]. cbn.
    rewrite Hown. apply queue_insert_eq.
Qed.

Lemma C6_witness :
  ∃ st', particle_free (Particle 8 7) second_open = Ok st' ∧
         queue (arrays st') (Pool (Geometry 6 [Particle 8 7; Particle 9 7] false) 10 11 7 2)
         = queue (arrays second_open)
             (Pool (Geometry 6 [Particle 8 7; Particle 9 7] false) 10 11 7 2)
           ++ [Particle 8 7].
Proof.
  apply (proj2 (proj2 (proj2 C6_free_guard)) (Particle 8 7)
           (Pool (Geometry 6 [Particle 8 7; Particle 9 7] false) 10 11 7 2) second_open).
  - vm_compute. apply elem_of_cons. right. apply elem_of_cons. by left.
  - reflexivity.
Defined.

(** ** A limit of zero *)

(** The claim C7 fails as stated: the constructor takes a
    [maximumParticles] of 0 for a missing option and puts the default of
    100000 in its place, so the pool grows past its pre-allocated
    segment. *)
Lemma C7_counterexample :
  maximumParticles (opts zero_limit) = 100000%Q ∧
  length (pools zero_limit) = 1 ∧
  (fun r => length (pools r.2)) <$> getParticles 2 3 zero_limit = Some 2.
Proof. by vm_compute. Qed.

Lemma getParticle_no_growth st fuel :
  (maximumParticles (opts st) <= 0)%Q →
  ∃ r st', getParticle (S fuel) st = Some (r, st') ∧
           pools st' = pools st ∧ opts st' = opts st.
Proof.
  intros Hle. unfold getParticle.
  destruct (some (maximumParticles (opts st)) (pools st) 0 (arrays st))
    as [[found c] h] eqn:Hsome.
  destruct found as [x|].
  - rewrite (getOrCreateParticle_found _ _ _ _ _ Hsome). by eexists _, _.
  - rewrite (getOrCreateParticle_null _ _ _ _ Hsome); [by eexists _, _|].
    apply ltb_false. eapply Qle_trans; [exact Hle|]. apply (of_nat_le 0). lia.
Qed.

(** C7, amended: in every state whose [maximumParticles] is 0 or less, a
    series of [getParticle] calls, however long, leaves the list of
    segments as it is; a call still returns the front particle of the
    first segment when that queue is not empty. *)
Theorem C7_no_growth_at_zero_limit st fuel :
  (maximumParticles (opts st) <= 0)%Q →
  (∀ n, ∃ rs st', getParticles (S fuel) n st = Some (rs, st') ∧
                  length rs = n ∧ pools st' = pools st) ∧
  (∀ p rest x q, pools st = p :: rest → queue (arrays st) p = x :: q →
     ∃ st', getParticle (S fuel) st = Some (Some x, st') ∧ pools st' = pools st).
Proof.
  intros Hle. split.
  - intros n. revert st Hle. induction n as [|n IH]; intros st Hle; cbn [getParticles].
    + by eexists _, _.
    + destruct (getParticle_no_growth st fuel Hle) as (r & st1 & -> & Hps & Hopts).
      destruct (IH st1) as (rs & st2 & -> & Hlen & Hps2); [by rewrite Hopts|].
      eexists _, _. split; [done|]. simpl. split; [by f_equal | congruence].
  - intros p rest x q Hps Hq.
    exists (set_arrays (<[available p := q]> (arrays st)) st). split; [|done].
    by apply (getParticle_served st fuel [] p rest x q); [|constructor|left|].
Qed.

Lemma C7_witness :
  (maximumParticles (opts negative_limit) <= 0)%Q ∧
  (∃ rs st', getParticles 1 5 negative_limit = Some (rs, st') ∧
             length rs = 5 ∧ pools st' = pools negative_limit).
Proof.
  assert (maximumParticles (opts negative_limit) <= 0)%Q as Hle
    by (vm_compute; discriminate).
  split; [exact Hle|].
  apply (proj1 (C7_no_growth_at_zero_limit negative_limit 0 Hle) 5).
Defined.

(** ** Raising the limit by a ratio *)



Example increasePool_capped :
  maximumParticles (opts (increasePool (Some 2%Q) None two_segments)) = 6%Q.
Proof. by vm_compute. Qed.

Example increasePool_default_ratio :
  maximumParticles (opts (increasePool None None two_segments))
  = Double.round 4.4%Q.
Proof. by vm_compute. Qed.

(** The doubles of some decimal numerals, and a product and a quotient
    that are not the exact ones. *)
Example doubles :
  Double.round 1.1%Q = (2476979795053773 # 2251799813685248)%Q ∧
  Double.mul 50%Q (Double.round 1.1%Q) = (7740561859543041 # 140737488355328)%Q ∧
  Double.mul 50%Q (Double.round 1.1%Q) = Double.round 55.00000000000001%Q ∧
  Double.div 33%Q (Double.round 1.1%Q) = Double.round 29.999999999999996%Q ∧
  (Double.div 33%Q (Double.round 1.1%Q) < 30)%Q ∧
  Double.mul 3%Q (Double.round 0.1%Q) = Double.round 0.30000000000000004%Q ∧
  Double.round (1 # 3) = (6004799503160661 # 18014398509481984)%Q ∧
  Double.round (9007199254740993 # 1) = 9007199254740992%Q ∧
  Double.round (1 # Pos.pow 2 1075) = 0%Q.
Proof. by vm_compute. Qed.

(** ** The gate of the cleanup in [update] *)

Lemma exceeds_true elapsed i :
  exceeds elapsed i = true ↔ ∃ n, i = Ms n ∧ (n < elapsed)%Z.
Proof.
  destruct i as [n|]; simpl.
  - rewrite Z.ltb_lt. split; [by exists n | by intros (? & [= <-] & ?)].
  - split; [done | by intros (? & ? & _)].
Qed.

Lemma update_due now now' st :
  cleanup_due now st = true →
  update now now' st
  = set_lastCleanup now' (cleanUp (set_pools (needs_update <$> pools st) st)).
Proof. intros H. unfold update. by rewrite H. Qed.

Lemma update_not_due now now' st :
  cleanup_due now st = false →
  update now now' st = set_pools (needs_update <$> pools st) st.
Proof. intros H. unfold update. by rewrite H. Qed.

Lemma update_cleanupInterval now now' st :
  cleanupInterval (opts (update now now' st)) = cleanupInterval (opts st).
Proof.
  unfold update. destruct (cleanup_due now st); [|done]. simpl.
  by destruct (cleanUp_frame (set_pools (needs_update <$> pools st) st)) as (-> & _).
Qed.

Lemma update_lastCleanup now now' st :
  lastCleanup (update now now' st)
  = if cleanup_due now st then now' else lastCleanup st.
Proof. unfold update. by destruct (cleanup_due now st). Qed.

(** The first cleanup of a series comes more than the interval after
    [lastCleanup]. *)
Lemma cleanups_first ticks st n b :
  cleanupInterval (opts st) = Ms n → cleanups ticks st !! 0 = Some b →
  (n < b.1 - lastCleanup st)%Z.
Proof.
  revert st. induction ticks as [|[now now'] ticks IH]; intros st Hn; [done|].
  cbn [cleanups]. destruct (cleanup_due now st) eqn:Hdue.
  - intros [= <-]. simpl. apply exceeds_true in Hdue as (m & Hm & Hlt).
    rewrite Hn in Hm. by injection Hm as ->.
  - intros Hb. apply IH in Hb; [|by rewrite update_cleanupInterval].
    by rewrite update_lastCleanup, Hdue in Hb.
Qed.

Lemma cleanups_spaced ticks st n i a b :
  cleanupInterval (opts st) = Ms n →
  cleanups ticks st !! i = Some a → cleanups ticks st !! S i = Some b →
  (n < b.1 - a.2)%Z.
Proof.
  revert st i. induction ticks as [|[now now'] ticks IH]; intros st i Hn; [done|].
  cbn [cleanups]. destruct (cleanup_due now st) eqn:Hdue.
  - destruct i as [|i]; simpl.
    + intros [= <-] Hb. simpl.
      apply cleanups_first with (n := n) in Hb; [|by rewrite update_cleanupInterval].
      by rewrite update_lastCleanup, Hdue in Hb.
    + apply IH. by rewrite update_cleanupInterval.
  - apply IH. by rewrite update_cleanupInterval.
Qed.

(** The claim C9 fails as stated: with [lastCleanup] at 0 and an interval
    of 10 ms, an [update] at time 10 finds that at least the interval has
    elapsed, and yet it does not clean up: the three idle segments, of
    which a cleanup leaves one, are all still there. *)
Lemma C9_counterexample :
  lastCleanup idle_three = 0%Z ∧ cleanupInterval (opts idle_three) = Ms 10 ∧
  length (pools (cleanUp idle_three)) = 1 ∧
  cleanup_due 10 idle_three = false ∧
  length (pools (update 10 10 idle_three)) = 3 ∧
  lastCleanup (update 10 10 idle_three) = 0%Z.
Proof. by vm_compute. Qed.

(** C9, amended: [update] runs the cleanup exactly when more than
    [cleanupInterval] has elapsed since [lastCleanup] (never for an
    interval of [Infinity]); it sets [lastCleanup] to the time read after
    the cleanup when it runs it and leaves [lastCleanup] alone when it
    does not; hence, of two cleanups that follow one another in a series of
    updates, the second starts more than the interval after the time the
    first one recorded. *)
Theorem C9_cleanup_gate :
  (∀ now st, cleanup_due now st = true
             ↔ ∃ n, cleanupInterval (opts st) = Ms n ∧ (n < now - lastCleanup st)%Z) ∧
  (∀ now now' st, cleanup_due now st = true →
     update now now' st
     = set_lastCleanup now' (cleanUp (set_pools (needs_update <$> pools st) st)) ∧
     lastCleanup (update now now' st) = now') ∧
  (∀ now now' st, cleanup_due now st = false →
     update now now' st = set_pools (needs_update <$> pools st) st ∧
     lastCleanup (update now now' st) = lastCleanup st) ∧
  (∀ ticks st n i a b,
     cleanupInterval (opts st) = Ms n →
     cleanups ticks st !! i = Some a → cleanups ticks st !! S i = Some b →
     (n < b.1 - a.2)%Z).
Proof.
  split_and!.
  - intros now st. apply exceeds_true.
  - intros now now' st Hdue. split; [by apply update_due|].
    by rewrite update_lastCleanup, Hdue.
  - intros now now' st Hdue. split; [by apply update_not_due|].
    by rewrite update_lastCleanup, Hdue.
  - apply cleanups_spaced.
Qed.

Lemma C9_witness :
  cleanup_due 11 idle_three = true ∧
  lastCleanup (update 11 12 idle_three) = 12%Z ∧
  cleanups [(5, 5); (11, 12); (20, 20); (22, 23); (23, 23)]%Z idle_three
  = [(11, 12); (23, 23)]%Z ∧
  (10 < 23 - 12)%Z.
Proof.
  assert (cleanup_due 11 idle_three = true) as Hdue by reflexivity.
  split; [exact Hdue|].
  split; [exact (proj2 (proj1 (proj2 C9_cleanup_gate) 11 12 idle_three Hdue))%Z|].
  split; [by vm_compute|].
  apply (proj2 (proj2 (proj2 C9_cleanup_gate))
           [(5, 5); (11, 12); (20, 20); (22, 23); (23, 23)]%Z idle_three
           10%Z 0 (11, 12)%Z (23, 23)%Z); by vm_compute.
Defined.

(** ** Cleanup keeps one spare segment *)

(** What the [forEach] of [cleanUp] computes: either every segment is idle
    and the initial value stands, or the result is one past the last
    segment that is not idle. *)
Lemma firstIdle_spec h ps k acc :
  (firstIdle h ps k acc = acc ∧ Forall (idle h) ps) ∨
  (∃ j p, ps !! j = Some p ∧ ¬ idle h p ∧ firstIdle h ps k acc = S (k + j) ∧
          Forall (idle h) (drop (S j) ps)).
Proof.
  revert k acc. induction ps as [|p ps IH]; intros k acc; simpl.
  - left. by split.
  - destruct (Nat.eqb_spec (length (queue h p)) (size p)) as [Hidle | Hbusy].
    + destruct (IH (S k) acc) as [[Heq Hall] | (j & p' & Hj & Hp' & Heq & Hall)].
      * left. split; [done | by constructor].
      * right. exists (S j), p'. rewrite Heq. split_and!; [done | done | f_equal; lia | done].
    + destruct (IH (S k) (S k)) as [[Heq Hall] | (j & p' & Hj & Hp' & Heq & Hall)].
      * right. exists 0, p. rewrite Heq. split_and!; [done | done | f_equal; lia | done].
      * right. exists (S j), p'. rewrite Heq. split_and!; [done | done | f_equal; lia | done].
Qed.

Lemma dispose_pools_calls st l :
  calls (foldl (fun s p => dispose_pool p s) st l) = calls st ++ (l ≫= disposal).
Proof.
  revert st. induction l as [|p l IH]; intros st; simpl.
  - by rewrite app_nil_r.
  - rewrite IH. simpl. by rewrite <- (assoc (++)).
Qed.

Lemma dispose_pools_arrays st l a :
  arrays (foldl (fun s p => dispose_pool p s) st l) !!! a
  = if decide (a ∈ available <$> l) then [] else arrays st !!! a.
Proof.
  revert st. induction l as [|p l IH]; intros st.
  - by rewrite decide_False by apply not_elem_of_nil.
  - cbn [foldl]. rewrite IH, fmap_cons. cbn [dispose_pool arrays set_arrays log].
    destruct (decide (a = available p)) as [-> | Hne].
    + rewrite lookup_total_insert_eq, (decide_True (P := _ ∈ _ :: _)).
      * by case_decide.
      * apply elem_of_cons. by left.
    + rewrite lookup_total_insert_ne by done.
      destruct (decide (a ∈ available <$> l)) as [Hin | Hin].
      * rewrite decide_True; [done | apply elem_of_cons; by right].
      * rewrite decide_False; [done|]. by intros [?|?]%elem_of_cons.
Qed.

Lemma cleanUp_removes st :
  let fi := firstIdle (arrays st) (pools st) 0 0 in
  1 < length (pools st) - fi →
  cleanUp st
  = foldl (fun s p => dispose_pool p s) (set_pools (take (S fi) (pools st)) st)
      (drop (S fi) (pools st)).
Proof.
  intros fi Hidle. unfold cleanUp. fold fi.
  destruct (Nat.ltb_spec 1 (length (pools st) - fi)) as [_ | ?]; [|lia].
  unfold splice. f_equal.
  - f_equal. rewrite drop_ge by lia. rewrite app_nil_r. f_equal. lia.
  - replace (fi + 1) with (S fi) by lia. apply take_ge. rewrite length_drop. lia.
Qed.

(** C4: let [fi] be the index [cleanUp] computes, one past the last
    segment whose queue length differs from its size (0 if there is none),
    so that the segments from [fi] on are idle. If more than one segment
    is idle at the end, [cleanUp] keeps the segments up to and including
    the one at [fi] and removes the others, [idlePools - 1] of them; for
    each removed segment, in order, it calls [object3d.remove] on the mesh
    and disposes of material and geometry, and it empties the segment's
    array. If at most one is idle the state is left unchanged. *)
Theorem C4_cleanUp_keeps_one_spare st :
  let fi := firstIdle (arrays st) (pools st) 0 0 in
  let idlePools := length (pools st) - fi in
  (fi ≤ length (pools st) ∧
   Forall (idle (arrays st)) (drop fi (pools st)) ∧
   (fi = 0 ∨ ∃ p, pools st !! (fi - 1) = Some p ∧
                  length (queue (arrays st) p) ≠ size p)) ∧
  (1 < idlePools →
     pools (cleanUp st) = take (S fi) (pools st) ∧
     length (pools (cleanUp st)) = length (pools st) - (idlePools - 1) ∧
     pools (cleanUp st) !! fi = pools st !! fi ∧
     calls (cleanUp st) = calls st ++ (drop (S fi) (pools st) ≫= disposal) ∧
     Forall (fun p => object3d_remove (mesh p) ∈ calls (cleanUp st) ∧
                      queue (arrays (cleanUp st)) p = [])
            (drop (S fi) (pools st))) ∧
  (idlePools ≤ 1 → cleanUp st = st).
Proof.
  intros fi idlePools. split_and!.
  - unfold fi.
    destruct (firstIdle_spec (arrays st) (pools st) 0 0)
      as [[Heq Hall] | (j & p & Hj & Hp & Heq & Hall)]; rewrite Heq; [lia|].
    apply lookup_lt_Some in Hj. simpl. lia.
  - unfold fi.
    destruct (firstIdle_spec (arrays st) (pools st) 0 0)
      as [[Heq Hall] | (j & p & Hj & Hp & Heq & Hall)]; by rewrite Heq.
  - unfold fi.
    destruct (firstIdle_spec (arrays st) (pools st) 0 0)
      as [[Heq Hall] | (j & p & Hj & Hp & Heq & Hall)]; rewrite Heq; [by left|].
    right. exists p. simpl. by rewrite Nat.sub_0_r.
  - intros Hidle. rewrite (cleanUp_removes st Hidle). fold fi.
    destruct (dispose_pools_frame (set_pools (take (S fi) (pools st)) st)
                (drop (S fi) (pools st))) as (_ & Hps & _).
    rewrite Hps. cbn [pools set_pools]. split_and!.
    + done.
    + rewrite length_take. unfold idlePools in *. lia.
    + apply lookup_take_lt. lia.
    + by rewrite dispose_pools_calls.
    + apply Forall_forall. intros p Hp. split.
      * rewrite dispose_pools_calls. apply elem_of_app. right.
        apply list_elem_of_bind. exists p. split; [|done].
        apply elem_of_cons. by left.
      * unfold queue. rewrite dispose_pools_arrays.
        rewrite decide_True; [done | by apply list_elem_of_fmap_2].
  - intros Hidle. unfold cleanUp. fold fi. fold idlePools.
    by destruct (Nat.ltb_spec 1 idlePools) as [? | _]; [lia|].
Qed.

(** The scenario of the test suite, with three segments for five. *)
Example cleanUp_idle_three :
  length (pools idle_three) = 3 ∧
  length (pools (update 11 11 idle_three)) = 1 ∧
  calls (update 11 11 idle_three)
  = [object3d_add 5; object3d_add 11; object3d_add 17;
     object3d_remove 11; material_dispose 10; geometry_dispose 6;
     object3d_remove 17; material_dispose 16; geometry_dispose 12].
Proof. by vm_compute. Qed.

Lemma C4_witness :
  1 < length (pools idle_three) - firstIdle (arrays idle_three) (pools idle_three) 0 0 ∧
  pools (cleanUp idle_three) = take 1 (pools idle_three) ∧
  length (pools (cleanUp idle_three)) = 3 - (3 - 1).
Proof.
  assert (1 < length (pools idle_three)
              - firstIdle (arrays idle_three) (pools idle_three) 0 0) as Hidle.
  { vm_compute. lia. }
  split; [exact Hidle|].
  destruct (proj1 (proj2 (C4_cleanUp_keeps_one_spare idle_three)) Hidle)
    as (Hps & Hlen & _).
  split; [exact Hps | exact Hlen].
Defined.

(** ** The scenarios of the test suite *)

Example creates_enough_pools_to_occupy_the_minimum :
  (fun st => (fun p => (size p, length (queue (arrays st) p))) <$> pools st)
    (DynamicParticlePool (configure 30%Q 10 5) 0) = [(5, 5); (5, 5)] ∧
  pools (DynamicParticlePool (Options.Make None (Some 0) None None None None) 0) = [].
Proof. by vm_compute. Qed.

Example dynamically_creates_more_pools :
  (fun st => (fun p => length (queue (arrays st) p)) <$> pools st)
    (after_getParticles 20 (DynamicParticlePool (configure 20%Q 10 5) 0))
  = [0; 0; 0; 0].
Proof. by vm_compute. Qed.

Example limits_the_amount_of_particles :
  let st := after_getParticles 20 (DynamicParticlePool (configure 20%Q 10 5) 0) in
  getParticle 2 st = Some (None, st) ∧ length (pools st) = 4.
Proof. by vm_compute. Qed.

Example prefers_particles_from_lowest_pool :
  let st := after_free (Particle 2 1)
              (after_getParticles 6 (DynamicParticlePool (configure 10%Q 0 5) 0)) in
  (fun p => length (queue (arrays st) p)) <$> pools st = [1; 4] ∧
  fst <$> getParticle 2 st = Some (Some (Particle 2 1)) ∧
  (fun p => length (queue (arrays (after_getParticles 1 st)) p))
    <$> pools (after_getParticles 1 st) = [0; 4].
Proof. by vm_compute. Qed.

(** * Beyond the claims: the books of a careful client *)

(** ** Particles in use, segment by segment *)

Lemma give_back_same p live : give_back p (p :: live) = give_back p live.
Proof. unfold give_back. rewrite filter_cons_False; [done | by intros ?]. Qed.

Lemma give_back_other p x live :
  x ≠ p → give_back p (x :: live) = x :: give_back p live.
Proof. intros. unfold give_back. by rewrite filter_cons_True. Qed.

Lemma give_back_absent p live : p ∉ live → give_back p live = live.
Proof.
  induction live as [|x live IH]; [done|]. rewrite not_elem_of_cons.
  intros [Hne Hnin]. rewrite give_back_other by done. by rewrite IH.
Qed.

Lemma give_back_perm p live :
  NoDup live → p ∈ live → live ≡ₚ p :: give_back p live.
Proof.
  induction live as [|x live IH]; [by intros _ ?%elem_of_nil|].
  rewrite NoDup_cons. intros [Hnin Hnd] Hin.
  destruct (decide (x = p)) as [-> | Hne].
  - by rewrite give_back_same, (give_back_absent p live Hnin).
  - apply elem_of_cons in Hin as [-> | Hin]; [done|].
    rewrite give_back_other by done.
    rewrite (IH Hnd Hin) at 1. apply perm_swap.
Qed.

Lemma give_back_NoDup p live : NoDup live → NoDup (give_back p live).
Proof. intros. by apply NoDup_filter. Qed.

Lemma held_from_elem s live x :
  x ∈ held_from s live ↔ free x = available s ∧ x ∈ live.
Proof. unfold held_from. by rewrite list_elem_of_filter. Qed.

Lemma held_from_take s live x :
  free x = available s → held_from s (x :: live) = x :: held_from s live.
Proof. intros. unfold held_from. by rewrite filter_cons_True. Qed.

Lemma held_from_skip s live x :
  free x ≠ available s → held_from s (x :: live) = held_from s live.
Proof. intros. unfold held_from. by rewrite filter_cons_False. Qed.

Lemma held_from_give_back_own s live p :
  NoDup live → p ∈ live → free p = available s →
  held_from s live ≡ₚ p :: held_from s (give_back p live).
Proof.
  intros Hnd Hin Hown. unfold held_from.
  rewrite (give_back_perm p live Hnd Hin) at 1. by rewrite filter_cons_True.
Qed.

Lemma held_from_give_back_other s live p :
  NoDup live → p ∈ live → free p ≠ available s →
  held_from s live ≡ₚ held_from s (give_back p live).
Proof.
  intros Hnd Hin Hown. unfold held_from.
  rewrite (give_back_perm p live Hnd Hin) at 1. by rewrite filter_cons_False.
Qed.

Lemma segment_ok_frame st st' live live' s :
  queue (arrays st') s = queue (arrays st) s →
  held_from s live' ≡ₚ held_from s live →
  particlesPerGeometry (opts st') = particlesPerGeometry (opts st) →
  segment_ok st live s → segment_ok st' live' s.
Proof.
  intros Hq Hheld Hpps [Hperm Hnd Hsize Hn Hown].
  constructor; try done; [by rewrite Hq, Hheld | by rewrite Hpps].
Qed.

(** A queued particle belongs to the segment and is not in use. *)
Lemma segment_ok_queued st live s x :
  segment_ok st live s → x ∈ queue (arrays st) s →
  free x = available s ∧ x ∉ live.
Proof.
  intros [Hperm Hnd _ _ Hown] Hx.
  assert (free x = available s) as Hfree.
  { rewrite Forall_forall in Hown. apply Hown. rewrite <- Hperm.
    apply elem_of_app. by left. }
  split; [done|]. intros Hlive.
  rewrite <- Hperm in Hnd. apply NoDup_app in Hnd as (_ & Hdisj & _).
  apply (Hdisj x Hx). by apply held_from_elem.
Qed.

(** A particle in use is one of the particles of its segment and is not
    in the queue. *)
Lemma segment_ok_held st live s x :
  segment_ok st live s → x ∈ live → free x = available s →
  x ∈ vertices (geometry s) ∧ x ∉ queue (arrays st) s.
Proof.
  intros [Hperm Hnd _ _ _] Hx Hfree.
  assert (x ∈ held_from s live) as Hheld by by apply held_from_elem.
  split.
  - rewrite <- Hperm. apply elem_of_app. by right.
  - intros Hq. rewrite <- Hperm in Hnd. apply NoDup_app in Hnd as (_ & Hdisj & _).
    by apply (Hdisj x Hq).
Qed.

(** An idle segment has none of its particles in use. *)
Lemma segment_ok_idle st live s :
  segment_ok st live s → idle (arrays st) s → held_from s live = [].
Proof.
  intros [Hperm _ Hsize _ _] Hidle. unfold idle in Hidle.
  apply Permutation_length in Hperm. rewrite length_app in Hperm.
  apply length_zero_iff_nil. lia.
Qed.

(** ** The books are kept by every operation *)

Lemma accounted_frame st st' live :
  pools st' = pools st → arrays st' = arrays st → next st' = next st →
  particlesPerGeometry (opts st') = particlesPerGeometry (opts st) →
  accounted st live → accounted st' live.
Proof.
  intros Hps Har Hn Hpps [[Hd Ha Hp] Hlive Hown Hseg]. constructor.
  - constructor; by rewrite ?Hps, ?Hn, ?Hpps.
  - done.
  - by rewrite Hps.
  - rewrite Hps. eapply Forall_impl; [exact Hseg|]. intros s Hs.
    eapply segment_ok_frame; [by rewrite Har | done | done | done].
Qed.

Lemma accounted_shift st live pre p rest x q :
  accounted st live →
  pools st = pre ++ p :: rest → queue (arrays st) p = x :: q →
  accounted (set_arrays (<[available p := q]> (arrays st)) st) (x :: live).
Proof.
  intros [Hwf Hlive Hown Hseg] Hps Hq.
  assert (p ∈ pools st) as Hp.
  { rewrite Hps. apply elem_of_app. right. apply elem_of_cons. by left. }
  assert (segment_ok st live p) as Hsp by (rewrite Forall_forall in Hseg; by apply Hseg).
  destruct (segment_ok_queued st live p x Hsp) as [Hfree Hnin].
  { rewrite Hq. apply elem_of_cons. by left. }
  constructor.
  - by apply wf_set_arrays.
  - by apply NoDup_cons.
  - constructor; [|done]. simpl. rewrite Hfree. by apply list_elem_of_fmap_2.
  - simpl. rewrite Forall_forall in *. intros s Hs.
    destruct (Hseg s Hs) as [Hperm Hnd Hsize Hn Hvs].
    constructor; try done. cbn [arrays set_arrays].
    destruct (decide (available s = available p)) as [Heq | Hne].
    + rewrite held_from_take by congruence.
      unfold queue in *. rewrite Heq, lookup_total_insert_eq.
      rewrite <- Hperm, Heq, Hq. simpl. by rewrite <- Permutation_middle.
    + rewrite held_from_skip by congruence.
      by rewrite queue_insert_ne.
Qed.

Lemma held_from_nil s live :
  (∀ x, x ∈ live → free x ≠ available s) → held_from s live = [].
Proof.
  induction live as [|x live IH]; intros Hall; [done|].
  rewrite held_from_skip.
  - apply IH. intros y Hy. apply Hall, elem_of_cons. by right.
  - apply Hall, elem_of_cons. by left.
Qed.

Lemma accounted_createGeometry st live :
  accounted st live → accounted (createGeometry st) live.
Proof.
  intros [Hwf Hlive Hown Hseg].
  pose proof (wf_allocated st Hwf) as Ha. rewrite Forall_forall in Ha.
  constructor.
  - by apply wf_createGeometry.
  - done.
  - eapply Forall_impl; [exact Hown|]. intros x Hx. cbn [createGeometry pools].
    rewrite fmap_app. apply elem_of_app. by left.
  - cbn [createGeometry pools]. apply Forall_app. split.
    + rewrite Forall_forall in *. intros s Hs.
      apply (segment_ok_frame st _ live live s); [|done|done|by apply Hseg].
      cbn [arrays]. apply queue_insert_ne. apply Ha in Hs. lia.
    + apply Forall_singleton.
      match goal with |- segment_ok _ _ ?s => set (snew := s) end.
      assert (held_from snew live = []) as Hnone.
      { apply held_from_nil. intros x Hx Hfree. rewrite Forall_forall in Hown.
        apply Hown, list_elem_of_fmap in Hx as (s0 & Heq & Hs0).
        apply Ha in Hs0. unfold snew in Hfree; simpl in Hfree. lia. }
      constructor.
      * rewrite Hnone, app_nil_r. unfold queue, snew; cbn.
        by rewrite lookup_total_insert_eq.
      * apply new_particles_NoDup.
      * done.
      * apply new_particles_length.
      * apply Forall_forall. by intros x [_ ?]%new_particles_spec.
Qed.

Lemma accounted_getOrCreateParticle fuel st live r st' :
  accounted st live → getOrCreateParticle fuel st = Some (r, st') →
  accounted st' (take_out r live).
Proof.
  revert st. induction fuel as [|fuel IH]; intros st Hacc; simpl; [done|].
  destruct (some _ _ _ _) as [[found c] h] eqn:Hsome.
  apply some_inv in Hsome. destruct found as [x|].
  - destruct Hsome as (pre & p & rest & q & Hps & _ & Hq & ->).
    intros [= <- <-]. by eapply accounted_shift.
  - subst h. rewrite set_arrays_id. destruct (ltb _ _).
    + apply IH. by apply accounted_createGeometry.
    + by intros [= <- <-].
Qed.

Lemma accounted_particle_free st live p st' :
  accounted st live → p ∈ live → particle_free p st = Ok st' →
  accounted st' (give_back p live).
Proof.
  intros [Hwf Hlive Hown Hseg] Hin [= <-]. constructor.
  - destruct Hwf. by constructor.
  - by apply give_back_NoDup.
  - cbn [pools set_arrays set_positions]. rewrite Forall_forall in *.
    intros x Hx. apply Hown. eapply elem_of_sublist; [exact Hx|].
    apply give_back_sublist.
  - cbn [pools set_arrays set_positions]. rewrite Forall_forall in *. intros s Hs.
    destruct (Hseg s Hs) as [Hperm Hnd Hsize Hn Hvs].
    constructor; try done. cbn [arrays set_arrays set_positions].
    destruct (decide (free p = available s)) as [Heq | Hne].
    + unfold queue in *. rewrite Heq, lookup_total_insert_eq.
      rewrite <- Hperm, (held_from_give_back_own s live p Hlive Hin Heq).
      by rewrite <- (assoc (++)).
    + rewrite queue_insert_ne by done.
      by rewrite <- (held_from_give_back_other s live p Hlive Hin Hne).
Qed.

Lemma accounted_needs_update st live :
  accounted st live → accounted (set_pools (needs_update <$> pools st) st) live.
Proof.
  intros [Hwf Hlive Hown Hseg]. constructor.
  - by apply wf_needs_update.
  - done.
  - cbn [pools set_pools]. by rewrite available_needs_update.
  - cbn [pools set_pools]. apply Forall_fmap.
    eapply Forall_impl; [exact Hseg|]. intros s [? ? ? ? ?]. by constructor.
Qed.

Lemma firstIdle_tail st :
  Forall (idle (arrays st)) (drop (firstIdle (arrays st) (pools st) 0 0) (pools st)).
Proof.
  destruct (firstIdle_spec (arrays st) (pools st) 0 0)
    as [[Heq Hall] | (j & p & Hj & Hp & Heq & Hall)]; by rewrite Heq.
Qed.

Lemma cleanUp_cases st :
  cleanUp st = st ∨
  (1 < length (pools st) - firstIdle (arrays st) (pools st) 0 0 ∧
   cleanUp st
   = foldl (fun s p => dispose_pool p s)
       (set_pools (take (S (firstIdle (arrays st) (pools st) 0 0)) (pools st)) st)
       (drop (S (firstIdle (arrays st) (pools st) 0 0)) (pools st))).
Proof.
  destruct (decide (1 < length (pools st) - firstIdle (arrays st) (pools st) 0 0))
    as [Hlt | Hge].
  - right. split; [done | by apply cleanUp_removes].
  - left. unfold cleanUp.
    by destruct (Nat.ltb_spec 1 (length (pools st) - firstIdle (arrays st) (pools st) 0 0)).
Qed.

(** The segments [cleanUp] keeps keep their queues. *)
Lemma cleanUp_kept_queue st s :
  wf st → s ∈ pools (cleanUp st) →
  s ∈ pools st ∧ queue (arrays (cleanUp st)) s = queue (arrays st) s.
Proof.
  intros Hwf. destruct (cleanUp_cases st) as [-> | [Hidle ->]]; [done|].
  set (fi := firstIdle (arrays st) (pools st) 0 0).
  destruct (dispose_pools_frame (set_pools (take (S fi) (pools st)) st)
              (drop (S fi) (pools st))) as (_ & -> & _).
  cbn [pools set_pools]. intros Hs. split.
  - eapply elem_of_sublist; [exact Hs | apply sublist_take].
  - unfold queue. rewrite dispose_pools_arrays. cbn [arrays set_pools].
    rewrite decide_False; [done|]. intros Hin.
    pose proof (wf_distinct st Hwf) as Hnd.
    rewrite <- (take_drop (S fi) (pools st)), fmap_app in Hnd.
    apply NoDup_app in Hnd as (_ & Hdisj & _).
    apply (Hdisj (available s)); [by apply list_elem_of_fmap_2 | done].
Qed.

Lemma accounted_cleanUp st live :
  accounted st live → accounted (cleanUp st) live.
Proof.
  intros Hacc. pose proof Hacc as [Hwf Hlive Hown Hseg].
  destruct (cleanUp_cases st) as [Heq | [Hidle Heq]]; [by rewrite Heq|].
  set (fi := firstIdle (arrays st) (pools st) 0 0) in *.
  assert (pools (cleanUp st) = take (S fi) (pools st)) as Hps.
  { rewrite Heq.
    by destruct (dispose_pools_frame (set_pools (take (S fi) (pools st)) st)
                   (drop (S fi) (pools st))) as (_ & -> & _). }
  assert (opts (cleanUp st) = opts st) as Hopts by apply cleanUp_frame.
  rewrite Forall_forall in Hown. rewrite Forall_forall in Hseg.
  constructor.
  - by apply wf_cleanUp.
  - done.
  - rewrite Hps. apply Forall_forall. intros x Hx.
    pose proof (Hown x Hx) as Hin.
    rewrite <- (take_drop (S fi) (pools st)), fmap_app in Hin.
    apply elem_of_app in Hin as [Hin | Hin]; [done|]. exfalso.
    apply list_elem_of_fmap in Hin as (s & Hfree & Hs).
    assert (s ∈ pools st) as Hs' by (eapply elem_of_sublist; [exact Hs | apply sublist_drop]).
    assert (idle (arrays st) s) as Hidle_s.
    { pose proof (firstIdle_tail st) as Htail. rewrite Forall_forall in Htail.
      apply Htail. fold fi. eapply elem_of_sublist; [exact Hs|].
      replace (S fi) with (fi + 1) by lia. rewrite <- drop_drop. apply sublist_drop. }
    pose proof (segment_ok_idle st live s (Hseg s Hs') Hidle_s) as Hnone.
    assert (x ∈ held_from s live) as Hheld by by apply held_from_elem.
    rewrite Hnone in Hheld. by apply elem_of_nil in Hheld.
  - apply Forall_forall. intros s Hs.
    destruct (cleanUp_kept_queue st s Hwf Hs) as [Hs' Hq].
    eapply segment_ok_frame; [exact Hq | done | by rewrite Hopts | by apply Hseg].
Qed.

Lemma accounted_update now now' st live :
  accounted st live → accounted (update now now' st) live.
Proof.
  intros Hacc. unfold update. destruct (cleanup_due now st).
  - apply accounted_needs_update, accounted_cleanUp in Hacc.
    by eapply accounted_frame; [..|exact Hacc].
  - by apply accounted_needs_update.
Qed.

Lemma accounted_set_maximumParticles m st live :
  accounted st live → accounted (set_maximumParticles m st) live.
Proof. by apply accounted_frame. Qed.

Lemma accounted_increasePool ratio absoluteCount st live :
  accounted st live → accounted (increasePool ratio absoluteCount st) live.
Proof.
  intros Hacc. unfold increasePool, if_truthy.
  destruct absoluteCount as [c|]; [destruct (Qeq_bool c 0)|];
    by apply accounted_set_maximumParticles.
Qed.

Lemma accounted_decreasePool ratio absoluteCount st live :
  accounted st live → accounted (decreasePool ratio absoluteCount st) live.
Proof.
  intros Hacc. unfold decreasePool, if_truthy.
  destruct absoluteCount as [c|]; [destruct (Qeq_bool c 0)|];
    by apply accounted_set_maximumParticles.
Qed.

Lemma accounted_DynamicParticlePool o now : accounted (DynamicParticlePool o now) [].
Proof.
  unfold DynamicParticlePool. generalize (ceil_div (minimumParticles (defaults o))
    (particlesPerGeometry (defaults o))). intros n.
  induction n as [|n IH]; simpl.
  - constructor; simpl; [|apply NoDup_nil_2 | constructor | constructor].
    constructor; simpl; [apply NoDup_nil_2 | constructor | apply defaults_positive].
  - by apply accounted_createGeometry.
Qed.

Lemma in_use_accounted st live : in_use st live → accounted st live.
Proof.
  induction 1; eauto using accounted_DynamicParticlePool,
    accounted_getOrCreateParticle, accounted_particle_free, accounted_update,
    accounted_increasePool, accounted_decreasePool.
Qed.

Lemma in_use_client fuel ops st live st' live' :
  in_use st live → client fuel ops st live = Some (st', live') → in_use st' live'.
Proof.
  revert st live. induction ops as [|[|p] ops IH]; intros st live Hin; cbn [client].
  - by intros [= <- <-].
  - destruct (getParticle fuel st) as [[r st1]|] eqn:Hget; [|done].
    apply IH. by eapply in_use_getParticle.
  - destruct (decide (p ∈ live)) as [Hp|]; [|done].
    destruct (particle_free p st) as [st1|] eqn:Hfree; [|done].
    apply IH. by eapply in_use_free.
Qed.

Lemma in_use_busy_first : in_use busy_first.1 busy_first.2.
Proof.
  unfold busy_first.
  destruct (client _ _ _ _) as [[st live]|] eqn:Hrun; simpl.
  - eapply in_use_client; [apply in_use_new | exact Hrun].
  - apply in_use_new.
Qed.

(** ** The constructor and [createGeometry] *)

Lemma place_lookup at_ ps h x :
  x ∈ ps → place at_ ps h !! pid x = Some at_.
Proof.
  induction ps as [|y ps IH]; [by intros ?%elem_of_nil|].
  intros Hin. simpl. destruct (decide (pid y = pid x)) as [-> | Hne].
  - apply lookup_insert_eq.
  - rewrite lookup_insert_ne by done. apply IH.
    apply elem_of_cons in Hin as [-> | ?]; done.
Qed.

(** What [createGeometry] adds, and what it leaves alone. *)
Lemma createGeometry_full_segment st :
  wf st →
  ∃ s, pools (createGeometry st) = pools st ++ [s] ∧
       (available s ∉ available <$> pools st) ∧
       size s = particlesPerGeometry (opts st) ∧
       queue (arrays (createGeometry st)) s = vertices (geometry s) ∧
       length (vertices (geometry s)) = particlesPerGeometry (opts st) ∧
       NoDup (vertices (geometry s)) ∧
       Forall (fun x => free x = available s ∧
                        positions (createGeometry st) !! pid x
                        = Some (offScreenPosition (opts st)))
              (vertices (geometry s)) ∧
       (∀ s0, s0 ∈ pools st →
              queue (arrays (createGeometry st)) s0 = queue (arrays st) s0) ∧
       calls (createGeometry st) = calls st ++ [object3d_add (mesh s)].
Proof.
  intros Hwf. pose proof (wf_allocated st Hwf) as Ha. rewrite Forall_forall in Ha.
  eexists. split; [reflexivity|]. cbn. split_and!.
  - intros (s0 & Heq & Hs0)%list_elem_of_fmap. apply Ha in Hs0. lia.
  - apply new_particles_length.
  - unfold queue; cbn. apply lookup_total_insert_eq.
  - apply new_particles_length.
  - apply new_particles_NoDup.
  - apply Forall_forall. intros x Hx. split.
    + by apply new_particles_spec in Hx as [_ ?].
    + by apply place_lookup.
  - intros s0 Hs0. apply queue_insert_ne. apply Ha in Hs0. lia.
  - done.
Qed.

(** X2: in a well-formed state [createGeometry] appends exactly one
    segment. Its array is new, its queue holds all its particles, which
    are [particlesPerGeometry] distinct particles bound to that array and
    placed at the off-screen position; the queues of the existing segments
    are left alone and the mesh is added to the scene object once. *)
Theorem X2_createGeometry_appends_full_segment st :
  wf st →
  ∃ s, pools (createGeometry st) = pools st ++ [s] ∧
       (available s ∉ available <$> pools st) ∧
       size s = particlesPerGeometry (opts st) ∧
       queue (arrays (createGeometry st)) s = vertices (geometry s) ∧
       length (vertices (geometry s)) = particlesPerGeometry (opts st) ∧
       NoDup (vertices (geometry s)) ∧
       Forall (fun x => free x = available s ∧
                        positions (createGeometry st) !! pid x
                        = Some (offScreenPosition (opts st)))
              (vertices (geometry s)) ∧
       (∀ s0, s0 ∈ pools st →
              queue (arrays (createGeometry st)) s0 = queue (arrays st) s0) ∧
       calls (createGeometry st) = calls st ++ [object3d_add (mesh s)].
Proof. apply createGeometry_full_segment. Qed.

Lemma X2_witness :
  ∃ s, pools (createGeometry one_segment) = pools one_segment ++ [s] ∧
       (available s ∉ available <$> pools one_segment) ∧
       size s = particlesPerGeometry (opts one_segment) ∧
       queue (arrays (createGeometry one_segment)) s = vertices (geometry s) ∧
       length (vertices (geometry s)) = particlesPerGeometry (opts one_segment) ∧
       NoDup (vertices (geometry s)) ∧
       Forall (fun x => free x = available s ∧
                        positions (createGeometry one_segment) !! pid x
                        = Some (offScreenPosition (opts one_segment)))
              (vertices (geometry s)) ∧
       (∀ s0, s0 ∈ pools one_segment →
              queue (arrays (createGeometry one_segment)) s0
              = queue (arrays one_segment) s0) ∧
       calls (createGeometry one_segment)
       = calls one_segment ++ [object3d_add (mesh s)].
Proof.
  apply (X2_createGeometry_appends_full_segment one_segment).
  apply reachable_wf, reach_new.
Defined.

(** The segments of a state in which nothing was allocated yet. *)
Lemma iter_createGeometry_full n st :
  wf st →
  Forall (fun s => size s = particlesPerGeometry (opts st) ∧
                   queue (arrays st) s = vertices (geometry s)) (pools st) →
  calls st = (fun s => object3d_add (mesh s)) <$> pools st →
  let st' := Nat.iter n createGeometry st in
  wf st' ∧ opts st' = opts st ∧ lastCleanup st' = lastCleanup st ∧
  length (pools st') = length (pools st) + n ∧
  Forall (fun s => size s = particlesPerGeometry (opts st) ∧
                   queue (arrays st') s = vertices (geometry s)) (pools st') ∧
  calls st' = (fun s => object3d_add (mesh s)) <$> pools st'.
Proof.
  intros Hwf Hfull Hcalls. induction n as [|n IH]; cbn [Nat.iter]; cbv zeta in *.
  - split_and!; try done; lia.
  - destruct IH as (Hwf' & Hopts & Hlast & Hlen & Hfull' & Hcalls').
    change (Nat.iter (S n) createGeometry st)
      with (createGeometry (Nat.iter n createGeometry st)).
    set (st1 := Nat.iter n createGeometry st) in *.
    destruct (createGeometry_full_segment st1 Hwf')
      as (s & Hps & _ & Hsize & Hq & _ & _ & _ & Hold & Hc).
    split_and!.
    + by apply wf_createGeometry.
    + done.
    + done.
    + rewrite Hps, length_app. simpl. lia.
    + rewrite Hps. apply Forall_app. split.
      * rewrite Forall_forall in *. intros s0 Hs0.
        destruct (Hfull' s0 Hs0) as [? ?]. split; [done|]. by rewrite Hold.
      * apply Forall_singleton. split; [by rewrite Hsize, Hopts | done].
    + by rewrite Hc, Hps, fmap_app, Hcalls'.
Qed.

Lemma ceil_div_bounds m p :
  0 < p → m ≤ ceil_div m p * p ∧ ceil_div m p * p < m + p.
Proof.
  intros Hp. unfold ceil_div.
  pose proof (Nat.div_mod_eq (m + (p - 1)) p) as Hdm.
  pose proof (Nat.mod_upper_bound (m + (p - 1)) p) as Hmod.
  nia.
Qed.

Lemma total_size_uniform n ps :
  Forall (fun s => size s = n) ps → total_size ps = length ps * n.
Proof.
  induction 1 as [|s ps Hs _ IH]; simpl; [done|]. rewrite IH, Hs. lia.
Qed.

(** X1: the constructor fills in the defaults and creates
    [Math.ceil(minimumParticles / particlesPerGeometry)] segments, each of
    [particlesPerGeometry] particles that are all in its queue; the
    capacity so created covers [minimumParticles] and exceeds it by less
    than one segment; every mesh was added to the scene object, in order,
    and nothing else was called; [lastCleanup] is the time of
    construction. *)
Theorem X1_constructor_preallocates_minimum o now :
  let st := DynamicParticlePool o now in
  let pps := particlesPerGeometry (defaults o) in
  opts st = defaults o ∧
  0 < pps ∧
  length (pools st) = ceil_div (minimumParticles (defaults o)) pps ∧
  Forall (fun s => size s = pps ∧ queue (arrays st) s = vertices (geometry s)
                   ∧ length (vertices (geometry s)) = pps) (pools st) ∧
  minimumParticles (defaults o) ≤ total_size (pools st) ∧
  total_size (pools st) < minimumParticles (defaults o) + pps ∧
  calls st = (fun s => object3d_add (mesh s)) <$> pools st ∧
  lastCleanup st = now.
Proof.
  intros st pps. unfold st, DynamicParticlePool.
  set (n := ceil_div (minimumParticles (defaults o)) (particlesPerGeometry (defaults o))).
  set (st0 := State (defaults o) [] now ∅ ∅ [] 0).
  assert (wf st0) as Hwf0.
  { constructor; simpl; [apply NoDup_nil_2 | constructor | apply defaults_positive]. }
  destruct (iter_createGeometry_full n st0 Hwf0)
    as (Hwf & Hopts & Hlast & Hlen & Hfull & Hcalls); [by constructor | done |].
  pose proof (defaults_positive o) as Hpos.
  destruct (ceil_div_bounds (minimumParticles (defaults o)) pps Hpos) as [Hlo Hhi].
  assert (total_size (pools (Nat.iter n createGeometry st0)) = n * pps) as Htotal.
  { rewrite (total_size_uniform pps); [by rewrite Hlen|].
    eapply Forall_impl; [exact Hfull|]. by intros s [? _]. }
  pose proof (accounted_DynamicParticlePool o now) as [_ _ _ Hseg].
  unfold DynamicParticlePool in Hseg. fold n st0 in Hseg.
  split_and!; try done.
  - rewrite Forall_forall in *. intros s Hs. destruct (Hfull s Hs) as [Hsz Hq].
    split_and!; [done | done |]. destruct (Hseg s Hs) as [_ _ Hsize _ _].
    by rewrite <- Hsize.
  - by rewrite Htotal.
  - by rewrite Htotal.
Qed.

(** ** When the pool grows and when it refuses *)

(** The part of the list a scan that found nothing has looked at. *)
Lemma some_none_prefix max ps c h c' h' :
  some max ps c h = (None, c', h') →
  ∃ pre rest, ps = pre ++ rest ∧ Forall (exhausted h) pre ∧
              c' = c + total_size pre.
Proof.
  revert c. induction ps as [|p ps IH]; intros c; simpl.
  - intros [= <- <-]. exists [], []. split_and!; [done | constructor | simpl; lia].
  - destruct (queue h p) as [|x q] eqn:Hq; [|done].
    destruct (gtb (of_nat (c + size p)) max).
    + intros [= <- <-]. exists [p], ps. split_and!; [done | | simpl; lia].
      by apply Forall_singleton.
    + intros Hsome. destruct (IH _ Hsome) as (pre & rest & -> & Hpre & ->).
      exists (p :: pre), rest. split_and!; [done | by constructor | simpl; lia].
Qed.

(** The three ways a call of [getParticle] can end. *)
Lemma getParticle_outcomes fuel st r st' :
  wf st → getParticle fuel st = Some (r, st') →
  (∃ x, r = Some x ∧ pools st' = pools st ∧ opts st' = opts st) ∨
  (r = None ∧ st' = st ∧
   ∃ pre rest, pools st = pre ++ rest ∧ Forall (exhausted (arrays st)) pre ∧
               (maximumParticles (opts st) <= of_nat (total_size pre))%Q) ∨
  (∃ s, r = Some (Particle (S (S (next st))) (S (next st))) ∧
        pools st' = pools st ++ [s] ∧ opts st' = opts st ∧
        available s = S (next st) ∧
        size s = particlesPerGeometry (opts st) ∧
        S (length (queue (arrays st') s)) = particlesPerGeometry (opts st) ∧
        Forall (exhausted (arrays st)) (pools st) ∧
        (of_nat (total_size (pools st)) < maximumParticles (opts st))%Q).
Proof.
  intros Hwf. unfold getParticle. destruct fuel as [|fuel]; [done|].
  destruct (some (maximumParticles (opts st)) (pools st) 0 (arrays st))
    as [[found c] h] eqn:Hsome.
  destruct found as [x|].
  - rewrite (getOrCreateParticle_found _ _ _ _ _ Hsome). intros [= <- <-].
    left. by exists x.
  - pose proof (some_inv _ _ _ _ _ _ _ Hsome) as Hh. simpl in Hh. subst h.
    destruct (ltb (of_nat c) (maximumParticles (opts st))) eqn:Hlt.
    + destruct fuel as [|fuel].
      { by rewrite (getOrCreateParticle_retry _ _ _ _ Hsome Hlt). }
      apply ltb_true in Hlt.
      destruct (some_none_within _ _ _ _ _ _ Hsome) as [Hall Hc];
        [by apply Qlt_le_weak|]. simpl in Hc. subst c.
      destruct (getParticle_grows st fuel Hwf Hall Hlt) as (q & Hnew & Hget).
      unfold getParticle in Hget. rewrite Hget. intros [= <- <-].
      right. right. eexists. split_and!; try done; cbn.
      * apply new_particles_length.
      * unfold queue; cbn. rewrite lookup_total_insert_eq.
        apply (f_equal length) in Hnew. rewrite new_particles_length in Hnew.
        simpl in Hnew. lia.
    + rewrite (getOrCreateParticle_null _ _ _ _ Hsome Hlt), set_arrays_id.
      intros [= <- <-]. right. left. split_and!; [done | done |].
      destruct (some_none_prefix _ _ _ _ _ _ Hsome) as (pre & rest & Hps & Hpre & Hc).
      exists pre, rest. split_and!; [done | done |].
      simpl in Hc. subst c. by apply ltb_false.
Qed.

(** X3: a call of [getParticle] adds at most one segment, and it adds one
    only when every existing segment is exhausted and their sizes add up
    to less than [maximumParticles]; it then returns the first particle of
    the new segment, and the capacity after the call stays below
    [maximumParticles + particlesPerGeometry]. Otherwise the list of
    segments is unchanged. The limit itself is never changed. *)
Theorem X3_getParticle_grows_only_when_needed fuel st r st' :
  wf st → getParticle fuel st = Some (r, st') →
  opts st' = opts st ∧
  (pools st' = pools st ∨
   ∃ s, pools st' = pools st ++ [s] ∧
        size s = particlesPerGeometry (opts st) ∧
        r = Some (Particle (S (S (next st))) (available s)) ∧
        Forall (exhausted (arrays st)) (pools st) ∧
        (of_nat (total_size (pools st)) < maximumParticles (opts st))%Q ∧
        (of_nat (total_size (pools st'))
         < maximumParticles (opts st) + of_nat (particlesPerGeometry (opts st)))%Q).
Proof.
  intros Hwf Hget.
  destruct (getParticle_outcomes fuel st r st' Hwf Hget)
    as [(x & -> & Hps & Hopts) | [(-> & -> & _)
        | (s & -> & Hps & Hopts & Ha & Hsize & _ & Hall & Hlt)]].
  - split; [done | by left].
  - split; [done | by left].
  - split; [done|]. right. exists s. rewrite Ha. split_and!; try done.
    rewrite Hps, total_size_app. simpl. rewrite Hsize, Nat.add_0_r.
    unfold of_nat in *. rewrite Nat2Z.inj_add, inject_Z_plus.
    by apply Qplus_lt_l.
Qed.

Lemma X3_witness :
  let st := after_getParticles 2 one_segment in
  let st' := after_getParticles 1 st in
  opts st' = opts st ∧
  (pools st' = pools st ∨
   ∃ s, pools st' = pools st ++ [s] ∧
        size s = particlesPerGeometry (opts st) ∧
        Some (Particle 8 7) = Some (Particle (S (S (next st))) (available s)) ∧
        Forall (exhausted (arrays st)) (pools st) ∧
        (of_nat (total_size (pools st)) < maximumParticles (opts st))%Q ∧
        (of_nat (total_size (pools st'))
         < maximumParticles (opts st) + of_nat (particlesPerGeometry (opts st)))%Q).
Proof.
  apply (X3_getParticle_grows_only_when_needed 2 (after_getParticles 2 one_segment)
           (Some (Particle 8 7))
           (after_getParticles 1 (after_getParticles 2 one_segment))).
  - apply reachable_wf, reachable_after_getParticles, reach_new.
  - by vm_compute.
Defined.

(** X4: when [getParticle] returns null it has changed nothing, and the
    exhausted segments at the head of the list already hold
    [maximumParticles] or more: null is never returned while the scan can
    still reach a particle or the limit leaves room for a segment. *)
Theorem X4_null_means_limit_reached fuel st st' :
  wf st → getParticle fuel st = Some (None, st') →
  st' = st ∧
  ∃ pre rest, pools st = pre ++ rest ∧ Forall (exhausted (arrays st)) pre ∧
              (maximumParticles (opts st) <= of_nat (total_size pre))%Q.
Proof.
  intros Hwf Hget.
  destruct (getParticle_outcomes fuel st None st' Hwf Hget)
    as [(x & [=] & _) | [(_ & -> & Hpre) | (s & [=] & _)]].
  by split.
Qed.

Lemma X4_witness :
  three_full = three_full ∧
  ∃ pre rest, pools three_full = pre ++ rest ∧
              Forall (exhausted (arrays three_full)) pre ∧
              (maximumParticles (opts three_full) <= of_nat (total_size pre))%Q.
Proof.
  apply (X4_null_means_limit_reached 2 three_full three_full).
  - apply reachable_wf, reachable_three_full.
  - by vm_compute.
Defined.

(** ** What [getStats] reports *)

Lemma stats_forEach_spec h ps total available entries :
  stats_forEach h ps total available entries
  = (total + total_size ps, available + length (queued h ps),
     entries ++ ((fun s => PoolStats.Make (size s) (length (queue h s))) <$> ps)).
Proof.
  revert total available entries. induction ps as [|s ps IH]; intros t a e; simpl.
  - by rewrite !Nat.add_0_r, app_nil_r.
  - rewrite IH, queued_cons, length_app, <- (assoc (++)). simpl.
    by rewrite !Nat.add_assoc.
Qed.

(** Every particle in use is counted for exactly one segment. *)
Lemma held_from_total ps live :
  NoDup (available <$> ps) →
  Forall (fun x => free x ∈ available <$> ps) live →
  sum_list_with (fun s => length (held_from s live)) ps = length live.
Proof.
  intros Hnd. induction 1 as [|x live Hx _ IH]; simpl.
  - clear Hnd. induction ps as [|s ps IHps]; simpl; [done | by rewrite IHps].
  - rewrite <- IH. clear IH. revert Hnd Hx.
    induction ps as [|s ps IHps]; [by intros _ ?%elem_of_nil|].
    rewrite fmap_cons, NoDup_cons. intros [Hnin Hnd] Hx. simpl.
    destruct (decide (free x = available s)) as [Heq | Hne].
    + rewrite held_from_take by done. simpl. do 2 f_equal.
      clear IHps Hx Hnd. rewrite <- Heq in Hnin. clear Heq. revert Hnin.
      induction ps as [|s' ps IHps]; [done|].
      rewrite fmap_cons, not_elem_of_cons. intros [Hne Hnin]. simpl.
      rewrite held_from_skip by done. by rewrite IHps.
    + rewrite held_from_skip by done.
      apply elem_of_cons in Hx as [? | Hx]; [done|].
      rewrite (IHps Hnd Hx). lia.
Qed.

Lemma books_balance st live ps :
  Forall (segment_ok st live) ps →
  total_size ps
  = length (queued (arrays st) ps)
    + sum_list_with (fun s => length (held_from s live)) ps.
Proof.
  induction 1 as [|s ps [Hperm _ Hsize _ _] _ IH]; [done|].
  simpl. rewrite queued_cons, length_app, IH, Hsize.
  apply Permutation_length in Hperm. rewrite length_app in Hperm. lia.
Qed.

(** X5: for a client that frees only particles it holds, whatever else it
    calls, [getStats] tells the truth: [total] is the number of segments
    times [particlesPerGeometry], [available] is the number of queued
    particles, and [used] is the number of particles the client holds; so
    no more particles are ever in use than the segments have slots, and no
    segment reports more available particles than its size. *)
Theorem X5_getStats_counts_particles_in_use st live :
  in_use st live →
  Stats.poolsCount (getStats st) = length (pools st) ∧
  Stats.particlesPerPool (getStats st) = particlesPerGeometry (opts st) ∧
  Stats.total (getStats st) = length (pools st) * particlesPerGeometry (opts st) ∧
  Stats.available (getStats st) = length (queued (arrays st) (pools st)) ∧
  Stats.used (getStats st) = Z.of_nat (length live) ∧
  length live ≤ length (pools st) * particlesPerGeometry (opts st) ∧
  Forall (fun e => PoolStats.size e = particlesPerGeometry (opts st) ∧
                   PoolStats.available e ≤ PoolStats.size e)
         (Stats.pools (getStats st)).
Proof.
  intros [Hwf Hlive Hown Hseg]%in_use_accounted.
  unfold getStats. rewrite stats_forEach_spec. cbn.
  assert (total_size (pools st) = length (pools st) * particlesPerGeometry (opts st))
    as Htotal.
  { apply total_size_uniform. eapply Forall_impl; [exact Hseg|].
    by intros s [_ _ _ ? _]. }
  pose proof (books_balance st live (pools st) Hseg) as Hbal.
  rewrite (held_from_total _ _ (wf_distinct st Hwf) Hown) in Hbal.
  split_and!; try done; try lia.
  apply Forall_fmap. eapply Forall_impl; [exact Hseg|].
  intros s [Hperm _ Hsize Hpps _]. cbn. split; [done|].
  apply Permutation_length in Hperm. rewrite length_app in Hperm. lia.
Qed.

Lemma X5_witness :
  Stats.total (getStats busy_first.1) = 3 * 2 ∧
  Stats.available (getStats busy_first.1) = 5 ∧
  Stats.used (getStats busy_first.1) = Z.of_nat (length busy_first.2) ∧
  busy_first.2 = [Particle 2 1].
Proof.
  pose proof (X5_getStats_counts_particles_in_use _ _ in_use_busy_first)
    as (_ & _ & Htotal & Havail & Hused & _).
  split; [exact Htotal|]. split; [by vm_compute|]. split; [exact Hused | by vm_compute].
Defined.

(** ** No particle in use loses its segment *)

Lemma accounted_segment_of st live x :
  accounted st live → x ∈ live →
  ∃ s, s ∈ pools st ∧ free x = available s ∧
       x ∈ vertices (geometry s) ∧ x ∉ queue (arrays st) s.
Proof.
  intros [Hwf Hlive Hown Hseg] Hx.
  rewrite Forall_forall in Hown. rewrite Forall_forall in Hseg.
  destruct (proj1 (list_elem_of_fmap _ _ _) (Hown x Hx)) as (s & Hfree & Hs).
  exists s. split_and!; [done | done | |];
    by eapply segment_ok_held; [apply Hseg | |].
Qed.

(** X6: for a client that frees only particles it holds, every particle in
    use belongs to a segment that is still in the list, whatever cleanups
    have run in the meantime: it is one of the particles created with
    that segment, its [free] is bound to the segment's array, and it is
    not in the queue. *)
Theorem X6_particle_in_use_keeps_its_segment st live x :
  in_use st live → x ∈ live →
  ∃ s, s ∈ pools st ∧ free x = available s ∧
       x ∈ vertices (geometry s) ∧ x ∉ queue (arrays st) s.
Proof. intros Hin%in_use_accounted. by apply accounted_segment_of. Qed.

Lemma X6_witness :
  Particle 2 1 ∈ busy_first.2 ∧ length (pools (update 11 12 busy_first.1)) = 2 ∧
  ∃ s, s ∈ pools (update 11 12 busy_first.1) ∧ free (Particle 2 1) = available s ∧
       Particle 2 1 ∈ vertices (geometry s) ∧
       Particle 2 1 ∉ queue (arrays (update 11 12 busy_first.1)) s.
Proof.
  assert (Particle 2 1 ∈ busy_first.2) as Hin.
  { vm_compute. apply elem_of_cons. by left. }
  split; [exact Hin|]. split; [by vm_compute|].
  apply (X6_particle_in_use_keeps_its_segment (update 11 12 busy_first.1)
           busy_first.2 (Particle 2 1)); [|exact Hin].
  apply in_use_update, in_use_busy_first.
Defined.

(** X7: for such a client [getParticle] never returns a particle that is
    in use, also when updates, cleanups and changes of the limit come
    between the calls; the particle it returns belongs to a segment of
    the list. *)
Theorem X7_getParticle_returns_no_particle_in_use fuel st live x st' :
  in_use st live → getParticle fuel st = Some (Some x, st') →
  (x ∉ live) ∧
  ∃ s, s ∈ pools st' ∧ free x = available s ∧ x ∈ vertices (geometry s).
Proof.
  intros Hin Hget.
  pose proof (in_use_getParticle fuel st live (Some x) st' Hin Hget) as Hin'.
  apply in_use_accounted in Hin'. pose proof Hin' as [_ Hnd _ _]. simpl in Hnd.
  apply NoDup_cons in Hnd as [Hnin _]. split; [done|].
  destruct (accounted_segment_of st' (x :: live) x Hin')
    as (s & Hs & Hfree & Hv & _); [apply elem_of_cons; by left|].
  by exists s.
Qed.

Lemma X7_witness :
  busy_first.2 = [Particle 2 1] ∧
  (Particle 3 1 ∉ busy_first.2) ∧
  ∃ s, s ∈ pools (after_getParticles 1 (update 11 12 busy_first.1)) ∧
       free (Particle 3 1) = available s ∧ Particle 3 1 ∈ vertices (geometry s).
Proof.
  split; [by vm_compute|].
  apply (X7_getParticle_returns_no_particle_in_use 2 (update 11 12 busy_first.1)
           busy_first.2 (Particle 3 1)
           (after_getParticles 1 (update 11 12 busy_first.1))).
  - apply in_use_update, in_use_busy_first.
  - by vm_compute.
Defined.

(** ** More about [cleanUp] *)

Lemma firstIdle_ext h h' ps k acc :
  (∀ s, s ∈ ps → queue h' s = queue h s) →
  firstIdle h' ps k acc = firstIdle h ps k acc.
Proof.
  revert k acc. induction ps as [|p ps IH]; intros k acc Hq; simpl; [done|].
  rewrite Hq by (apply elem_of_cons; by left).
  apply IH. intros s Hs. apply Hq, elem_of_cons. by right.
Qed.

Lemma firstIdle_app h l1 l2 k acc :
  firstIdle h (l1 ++ l2) k acc
  = firstIdle h l2 (k + length l1) (firstIdle h l1 k acc).
Proof.
  revert k acc. induction l1 as [|p l1 IH]; intros k acc; simpl.
  - by rewrite Nat.add_0_r.
  - rewrite IH. f_equal. lia.
Qed.

Lemma firstIdle_idle h ps k acc :
  Forall (idle h) ps → firstIdle h ps k acc = acc.
Proof.
  intros Hall. revert k. induction Hall as [|p ps Hp _ IH]; intros k; simpl; [done|].
  unfold idle in Hp. rewrite Hp, Nat.eqb_refl. apply IH.
Qed.

(** The index is the same when only the segments up to and including the
    first idle one are looked at. *)
Lemma firstIdle_take st :
  firstIdle (arrays st)
    (take (S (firstIdle (arrays st) (pools st) 0 0)) (pools st)) 0 0
  = firstIdle (arrays st) (pools st) 0 0.
Proof.
  set (fi := firstIdle (arrays st) (pools st) 0 0).
  pose proof (firstIdle_tail st) as Htail. fold fi in Htail.
  unfold fi at 2. rewrite <- (take_drop (S fi) (pools st)) at 2.
  rewrite firstIdle_app, (firstIdle_idle _ (drop (S fi) (pools st))); [done|].
  rewrite Forall_forall in *. intros s Hs. apply Htail.
  eapply elem_of_sublist; [exact Hs|].
  replace (S fi) with (fi + 1) by lia. rewrite <- drop_drop. apply sublist_drop.
Qed.

Lemma cleanUp_keeps_busy st s :
  s ∈ pools st → ¬ idle (arrays st) s → s ∈ pools (cleanUp st).
Proof.
  intros Hs Hbusy. destruct (cleanUp_cases st) as [-> | [Hidle ->]]; [done|].
  set (fi := firstIdle (arrays st) (pools st) 0 0).
  destruct (dispose_pools_frame (set_pools (take (S fi) (pools st)) st)
              (drop (S fi) (pools st))) as (_ & -> & _).
  cbn [pools set_pools]. rewrite <- (take_drop (S fi) (pools st)) in Hs.
  apply elem_of_app in Hs as [Hs | Hs]; [done|]. exfalso. apply Hbusy.
  pose proof (firstIdle_tail st) as Htail. fold fi in Htail.
  rewrite Forall_forall in Htail. apply Htail.
  eapply elem_of_sublist; [exact Hs|].
  replace (S fi) with (fi + 1) by lia. rewrite <- drop_drop. apply sublist_drop.
Qed.

(** X8: [cleanUp] only ever removes idle segments from the end of the
    list: what remains is a prefix of the list, every segment that has a
    particle out of its queue remains, and in a well-formed state the
    queues of the remaining segments are as they were. *)
Theorem X8_cleanUp_spares_segments_in_use st :
  wf st →
  pools (cleanUp st) `prefix_of` pools st ∧
  (∀ s, s ∈ pools st → ¬ idle (arrays st) s → s ∈ pools (cleanUp st)) ∧
  (∀ s, s ∈ pools (cleanUp st) →
        queue (arrays (cleanUp st)) s = queue (arrays st) s).
Proof.
  intros Hwf. split_and!.
  - destruct (cleanUp_cases st) as [-> | [Hidle ->]]; [done|].
    set (fi := firstIdle (arrays st) (pools st) 0 0).
    destruct (dispose_pools_frame (set_pools (take (S fi) (pools st)) st)
                (drop (S fi) (pools st))) as (_ & -> & _).
    cbn [pools set_pools]. exists (drop (S fi) (pools st)). by rewrite take_drop.
  - apply cleanUp_keeps_busy.
  - intros s Hs. by apply cleanUp_kept_queue.
Qed.

Lemma X8_witness :
  length (pools busy_first.1) = 3 ∧ length (pools (cleanUp busy_first.1)) = 2 ∧
  pools (cleanUp busy_first.1) `prefix_of` pools busy_first.1 ∧
  (∀ s, s ∈ pools busy_first.1 → ¬ idle (arrays busy_first.1) s →
        s ∈ pools (cleanUp busy_first.1)) ∧
  (∀ s, s ∈ pools (cleanUp busy_first.1) →
        queue (arrays (cleanUp busy_first.1)) s = queue (arrays busy_first.1) s).
Proof.
  split; [by vm_compute|]. split; [by vm_compute|].
  apply (X8_cleanUp_spares_segments_in_use busy_first.1).
  pose proof (in_use_accounted _ _ in_use_busy_first) as [Hwf _ _ _]. exact Hwf.
Defined.

(** X9: in a well-formed state a second [cleanUp] right after the first
    changes nothing. *)
Theorem X9_cleanUp_idempotent st :
  wf st → cleanUp (cleanUp st) = cleanUp st.
Proof.
  intros Hwf. destruct (cleanUp_cases st) as [Heq | [Hidle Heq]]; [by rewrite !Heq|].
  set (fi := firstIdle (arrays st) (pools st) 0 0) in *.
  assert (pools (cleanUp st) = take (S fi) (pools st)) as Hps.
  { rewrite Heq.
    by destruct (dispose_pools_frame (set_pools (take (S fi) (pools st)) st)
                   (drop (S fi) (pools st))) as (_ & -> & _). }
  assert (firstIdle (arrays (cleanUp st)) (pools (cleanUp st)) 0 0 = fi) as Hfi.
  { rewrite (firstIdle_ext (arrays st)).
    - rewrite Hps. apply firstIdle_take.
    - intros s Hs. by apply cleanUp_kept_queue. }
  unfold cleanUp at 1. rewrite Hfi, Hps, length_take.
  by destruct (Nat.ltb_spec 1 (S fi `min` length (pools st) - fi)); [lia|].
Qed.

Lemma wf_release_all rs st : wf st → wf (release_all rs st).
Proof.
  revert st. unfold release_all.
  induction rs as [|[p|] rs IH]; intros st Hwf; simpl; [done | | by apply IH].
  apply IH. unfold after_free, particle_free.
  destruct (freePoolParticle (free p) (this_particle p) st) as [st'|] eqn:Hfree; [|done].
  by eapply wf_freePoolParticle.
Qed.

Lemma wf_idle_three : wf idle_three.
Proof.
  unfold idle_three.
  destruct (getParticles 2 6 _) as [[rs st]|] eqn:Hget; [|apply wf_DynamicParticlePool].
  apply wf_release_all.
  eapply reachable_wf, reachable_getParticles; [apply reach_new | exact Hget].
Qed.

Lemma X9_witness :
  length (pools idle_three) = 3 ∧ length (pools (cleanUp idle_three)) = 1 ∧
  cleanUp (cleanUp idle_three) = cleanUp idle_three.
Proof.
  split; [by vm_compute|]. split; [by vm_compute|].
  apply (X9_cleanUp_idempotent idle_three wf_idle_three).
Defined.

(** ** Changing the limit *)

Lemma Qmin_right (a b : Q) : (b < a)%Q → Qmin a b = b.
Proof.
  intros Hlt. unfold Qmin, GenericMinMax.gmin.
  by rewrite (proj1 (Qgt_alt a b) Hlt).
Qed.



(** X11: [increasePool] can lower the limit. Called without a truthy
    [absoluteCount] and with a ratio that does not shrink the limit (the
    product the code computes is not below the limit), on a pool whose
    limit is above [(pools.length + 1) * particlesPerGeometry], it sets
    the limit down to that value. With the default options this takes the
    limit from 100000 to 4500. *)
Theorem X11_increasePool_can_lower_limit st ratio absoluteCount :
  truthy absoluteCount = false →
  let r := or_else ratio (defaultAdjustmentRatio (opts st)) in
  let maxValue := of_nat ((length (pools st) + 1) * particlesPerGeometry (opts st)) in
  (maxValue < maximumParticles (opts st))%Q →
  (maximumParticles (opts st) <= Double.mul (maximumParticles (opts st)) r)%Q →
  maximumParticles (opts (increasePool ratio absoluteCount st)) = maxValue ∧
  (maximumParticles (opts (increasePool ratio absoluteCount st))
   < maximumParticles (opts st))%Q.
Proof.
  intros Habs r maxValue Hlt Hle.
  assert (maximumParticles (opts (increasePool ratio absoluteCount st)) = maxValue)
    as Hnew.
  { assert (maxValue < Double.mul (maximumParticles (opts st)) r)%Q as Hlt'
      by (by eapply Qlt_le_trans).
    unfold increasePool, truthy, if_truthy in *.
    destruct absoluteCount as [c|]; [destruct (Qeq_bool c 0); [|done]|];
      by apply Qmin_right. }
  split; [done | by rewrite Hnew].
Qed.

Lemma X11_witness :
  let st := increasePool None (Some 100%Q) two_segments in
  maximumParticles (opts st) = 100%Q ∧
  maximumParticles (opts (increasePool None None st))
  = of_nat ((length (pools st) + 1) * particlesPerGeometry (opts st)) ∧
  (maximumParticles (opts (increasePool None None st)) < maximumParticles (opts st))%Q.
Proof.
  split; [by vm_compute|].
  apply (X11_increasePool_can_lower_limit (increasePool None (Some 100%Q) two_segments)
           None None eq_refl); by vm_compute.
Defined.

Example increasePool_on_defaults :
  maximumParticles (opts (increasePool None None (DynamicParticlePool Options.empty 0)))
  = 4500%Q.
Proof. by vm_compute. Qed.

(** ** More about [update] *)

(** X12: after [update] every segment left in the list has
    [verticesNeedUpdate] set, whether or not the cleanup ran; the arrays
    of the segments left are arrays of segments that were there before,
    in the same order; and an [update] that does not clean up changes
    nothing else. *)
Theorem X12_update_flags_every_segment now now' st :
  Forall (fun s => verticesNeedUpdate (geometry s) = true)
         (pools (update now now' st)) ∧
  (available <$> pools (update now now' st)) `sublist_of` (available <$> pools st) ∧
  opts (update now now' st) = opts st ∧
  (cleanup_due now st = false →
     pools (update now now' st) = needs_update <$> pools st ∧
     arrays (update now now' st) = arrays st ∧
     positions (update now now' st) = positions st ∧
     calls (update now now' st) = calls st ∧
     lastCleanup (update now now' st) = lastCleanup st).
Proof.
  assert (Forall (fun s => verticesNeedUpdate (geometry s) = true)
            (needs_update <$> pools st)) as Hflag.
  { apply Forall_fmap, Forall_forall. by intros s _. }
  unfold update. destruct (cleanup_due now st) eqn:Hdue.
  - destruct (cleanUp_frame (set_pools (needs_update <$> pools st) st))
      as (Hopts & _ & _ & Hsub). cbn [pools set_pools] in Hsub.
    split_and!; [| | cbn [opts set_lastCleanup]; by rewrite Hopts | done].
    + cbn [pools set_lastCleanup]. rewrite Forall_forall in *. intros s Hs.
      apply Hflag. by eapply elem_of_sublist.
    + cbn [pools set_lastCleanup]. rewrite <- (available_needs_update (pools st)).
      by apply fmap_sublist.
  - split_and!; [done | | done | done].
    cbn [pools set_pools]. by rewrite available_needs_update.
Qed.

(** ** Every reachable state is well formed *)

(** X13: whatever a client calls, in whatever order and with whatever
    context for [free], the segments of the pool keep arrays of their own,
    created before the next object the pool will create, and
    [particlesPerGeometry] stays positive; so a [shift], a [push] or a
    clearing of one segment's queue never shows in another segment. *)
Theorem X13_segments_never_share_an_array st :
  reachable st →
  NoDup (available <$> pools st) ∧
  Forall (fun s => available s < next st) (pools st) ∧
  0 < particlesPerGeometry (opts st).
Proof. intros [? ? ?]%reachable_wf. done. Qed.

Lemma X13_witness :
  NoDup (available <$> pools shrunk) ∧
  Forall (fun s => available s < next shrunk) (pools shrunk) ∧
  0 < particlesPerGeometry (opts shrunk).
Proof. apply (X13_segments_never_share_an_array shrunk reachable_shrunk). Defined.

Lemma X12_witness :
  cleanup_due 5 idle_three = false ∧
  pools (update 5 6 idle_three) = needs_update <$> pools idle_three ∧
  arrays (update 5 6 idle_three) = arrays idle_three ∧
  positions (update 5 6 idle_three) = positions idle_three ∧
  calls (update 5 6 idle_three) = calls idle_three ∧
  lastCleanup (update 5 6 idle_three) = lastCleanup idle_three.
Proof.
  assert (cleanup_due 5 idle_three = false) as Hdue by (by vm_compute).
  split; [exact Hdue|].
  apply (proj2 (proj2 (proj2 (X12_update_flags_every_segment 5 6 idle_three))) Hdue).
Defined.

(** ** Queues are served in order *)

(** X14: a queue is served first in, first out. If [p] is the earliest
    segment with a queue that is not empty and the scan reaches it, then
    as many calls of [getParticle] as the queue is long return its
    particles in the order they stand in the queue, create no segment,
    leave the queue empty and the other queues alone. *)
Theorem X14_getParticles_serve_queue_in_order st fuel pre p rest l :
  wf st →
  pools st = pre ++ p :: rest →
  Forall (exhausted (arrays st)) pre →
  pre = [] ∨ (of_nat (total_size pre) <= maximumParticles (opts st))%Q →
  queue (arrays st) p = l →
  ∃ st', getParticles (S fuel) (length l) st = Some (Some <$> l, st') ∧
         pools st' = pools st ∧ queue (arrays st') p = [] ∧
         (∀ s, s ∈ pre ++ rest → queue (arrays st') s = queue (arrays st) s).
Proof.
  revert st. induction l as [|x l IH]; intros st Hwf Hps Hpre Hle Hq.
  - exists st. by split_and!.
  - set (st1 := set_arrays (<[available p := l]> (arrays st)) st).
    assert (∀ s, s ∈ pre ++ rest → queue (arrays st1) s = queue (arrays st) s) as Hother.
    { intros s Hs. apply queue_insert_ne. by eapply other_segment_other_array. }
    destruct (IH st1) as (st' & Hrun & Hps' & Hq' & Hother').
    + by apply wf_set_arrays.
    + done.
    + rewrite Forall_forall in *. intros s Hs. unfold exhausted.
      rewrite Hother; [by apply Hpre | apply elem_of_app; by left].
    + done.
    + apply queue_insert_eq.
    + exists st'. cbn [getParticles length].
      rewrite (getParticle_served st fuel pre p rest x l) by done.
      fold st1. rewrite Hrun. split_and!; [done | done | done |].
      intros s Hs. by rewrite Hother', Hother.
Qed.

Lemma X14_witness :
  queue (arrays (after_free (Particle 2 1) (after_getParticles 1 one_segment)))
    (Pool (Geometry 0 [Particle 2 1; Particle 3 1] false) 4 5 1 2)
  = [Particle 3 1; Particle 2 1] ∧
  ∃ st', getParticles 1 2 (after_free (Particle 2 1) (after_getParticles 1 one_segment))
         = Some ([Some (Particle 3 1); Some (Particle 2 1)], st') ∧
         pools st'
         = pools (after_free (Particle 2 1) (after_getParticles 1 one_segment)) ∧
         queue (arrays st')
           (Pool (Geometry 0 [Particle 2 1; Particle 3 1] false) 4 5 1 2) = [] ∧
         (∀ s, s ∈ [] ++ [] →
               queue (arrays st') s
               = queue (arrays (after_free (Particle 2 1)
                                  (after_getParticles 1 one_segment))) s).
Proof.
  split; [by vm_compute|].
  apply (X14_getParticles_serve_queue_in_order
           (after_free (Particle 2 1) (after_getParticles 1 one_segment)) 0 []
           (Pool (Geometry 0 [Particle 2 1; Particle 3 1] false) 4 5 1 2) []
           [Particle 3 1; Particle 2 1]).
  - apply reachable_wf.
    apply (reach_free 1 (this_particle (Particle 2 1))
             (after_getParticles 1 one_segment)); [|by vm_compute].
    apply reachable_after_getParticles, reach_new.
  - by vm_compute.
  - constructor.
  - by left.
  - by vm_compute.
Defined.

(** ** Reuse at the limit *)

(** X15: when every segment is exhausted and their sizes have reached
    [maximumParticles], freeing one particle through its own [free] makes
    exactly one allocation succeed: the next [getParticle] returns that
    particle and the one after it returns null, provided the scan reaches
    the particle's segment. *)
Theorem X15_freed_particle_is_reused_once st fuel pre p rest h :
  wf st →
  pools st = pre ++ p :: rest →
  free h = available p →
  Forall (exhausted (arrays st)) (pools st) →
  (maximumParticles (opts st) <= of_nat (total_size (pools st)))%Q →
  pre = [] ∨ (of_nat (total_size pre) <= maximumParticles (opts st))%Q →
  ∃ st1 st2, particle_free h st = Ok st1 ∧
             getParticle (S fuel) st1 = Some (Some h, st2) ∧
             getParticle (S fuel) st2 = Some (None, st2) ∧
             pools st2 = pools st.
Proof.
  intros Hwf Hps Hown Hall Hmax Hle. unfold particle_free, freePoolParticle.
  set (st1 := set_arrays _ _).
  set (st2 := set_arrays (<[available p := []]> (arrays st1)) st1).
  assert (∀ s, s ∈ pre ++ rest → queue (arrays st1) s = queue (arrays st) s) as Hother.
  { intros s Hs. unfold st1; cbn [arrays set_arrays set_positions].
    apply queue_insert_ne. rewrite Hown. by eapply other_segment_other_array. }
  assert (exhausted (arrays st) p ∧ Forall (exhausted (arrays st)) pre
          ∧ Forall (exhausted (arrays st)) rest) as (Hp & Hpre & Hrest).
  { rewrite Hps, Forall_app, Forall_cons in Hall. by destruct Hall as (? & ? & ?). }
  assert (queue (arrays st1) p = [h]) as Hq.
  { unfold st1; cbn [arrays set_arrays set_positions].
    rewrite Hown, queue_insert_eq. unfold exhausted, queue in Hp. by rewrite Hp. }
  exists st1, st2. split_and!; [done | | | done].
  - apply (getParticle_served st1 fuel pre p rest h []); [done | | done | done].
    rewrite Forall_forall in *. intros s Hs. unfold exhausted.
    rewrite Hother; [by apply Hpre | apply elem_of_app; by left].
  - apply getParticle_full; [|done].
    change (pools st2) with (pools st). rewrite Hps.
    assert (∀ s, s ∈ pre ++ rest → exhausted (arrays st2) s) as Hex.
    { intros s Hs. unfold exhausted, st2; cbn [arrays set_arrays].
      rewrite queue_insert_ne by by eapply other_segment_other_array.
      rewrite (Hother s Hs). rewrite Forall_forall in Hpre, Hrest.
      apply elem_of_app in Hs as [?|?]; [by apply Hpre | by apply Hrest]. }
    apply Forall_app. split; [|apply Forall_cons; split].
    + apply Forall_forall. intros s Hs. apply Hex, elem_of_app. by left.
    + apply queue_insert_eq.
    + apply Forall_forall. intros s Hs. apply Hex, elem_of_app. by right.
Qed.

Lemma X15_witness :
  ∃ st1 st2, particle_free (Particle 9 7) three_full = Ok st1 ∧
             getParticle 1 st1 = Some (Some (Particle 9 7), st2) ∧
             getParticle 1 st2 = Some (None, st2) ∧
             pools st2 = pools three_full.
Proof.
  apply (X15_freed_particle_is_reused_once three_full 0 (take 1 (pools three_full))
           (Pool (Geometry 6 [Particle 8 7; Particle 9 7] false) 10 11 7 2)
           (drop 2 (pools three_full)) (Particle 9 7)).
  - apply reachable_wf, reachable_three_full.
  - by vm_compute.
  - reflexivity.
  - vm_compute. repeat constructor.
  - vm_compute. discriminate.
  - right. vm_compute. discriminate.
Defined.
